(** * disgord: event dispatcher, client life cycle, tlru cache, channel validation

    A shallow embedding of the parts of the disgord sources that the
    specification talks about:

    - [event_dispatcher.go]: the [Dispatch] registry, [AddHandler],
      [AddHandlerOnce], [triggerChan], [triggerCallbacks], [start], [stop],
      [Unmarshal];
    - the client file: [Client.Connect], [Client.Disconnect], [Client.Emit],
      [Client.On], [Client.Once], [Client.eventHandler];
    - package [tlru]: [CacheList.Set], [CacheList.removeLRU], [CacheList.Get],
      [CacheList.Delete], [CacheList.CreateCacheableItem],
      [CacheList.RefreshAfterDiscordUpdate] and the methods of [CacheItem];
    - [cache_voiceState.go]: [guildVoiceStatesCache.sessionPosition],
      [existingSession], [update];
    - [struct_channel.go]: [Channel.valid], [Compare], [CopyOverTo],
      [DeepCopy], [copyOverToCache], [saveToDiscord], [deleteFromDiscord];
    - the websocket client's event tracking, of which only the tests are
      available.

    Go code that can panic is embedded in a state monad whose outcomes are
    either a normal return or a panic; goroutine starts, channel sends and
    printed lines are recorded as traces in the state. *)

From stdpp Require Import gmap strings list fin_maps pretty.

Local Open Scope string_scope.
Local Open Scope list_scope.

(** ** Panics and the state monad *)

(** The run-time panics the modelled code can raise. *)
Inductive panic : Type :=
  | IndexOutOfRange (index : Z) (len : nat)  (* s[i] with i outside 0..len-1 *)
  | InterfaceConversion                       (* failed type assertion x.(T) *)
  | CloseOfClosedChannel                      (* close(ch) on a closed channel *)
  | DecodeError                               (* panic(err) in Unmarshal *)
  | NilDereference                            (* method on a nil pointer *)
  | UncomparableType.                         (* a == b on interfaces holding slices, maps, funcs *)

Inductive outcome (S A : Type) : Type :=
  | Done (a : A) (s : S)
  | Panicked (p : panic) (s : S).
Arguments Done {S A} a s.
Arguments Panicked {S A} p s.

Definition M (S A : Type) : Type := S → outcome S A.

Definition ret {S A} (a : A) : M S A := λ s, Done a s.

Definition bind {S A B} (m : M S A) (k : A → M S B) : M S B :=
  λ s, match m s with
       | Done a s' => k a s'
       | Panicked p s' => Panicked p s'
       end.

Definition raise {S A} (p : panic) : M S A := λ s, Panicked p s.
Definition gets {S A} (f : S → A) : M S A := λ s, Done (f s) s.
Definition modify {S} (f : S → S) : M S unit := λ s, Done tt (f s).

Declare Scope go_scope.
Delimit Scope go_scope with go.
Notation "'let*' x ':=' m 'in' k" := (bind m (λ x, k))
  (at level 10, x name, m at level 100, k at level 200) : go_scope.
Notation "m '>>' k" := (bind m (λ _, k))
  (at level 100, k at level 200, right associativity) : go_scope.
Local Open Scope go_scope.

(** A call that touches no state: it returns a value or panics. *)
Inductive result (A : Type) : Type :=
  | Ok (a : A)
  | Panic (p : panic).
Arguments Ok {A} a.
Arguments Panic {A} p.

Definition lift {S A} (r : result A) : M S A :=
  λ s, match r with Ok a => Done a s | Panic p => Panicked p s end.

(** The state an outcome ends in, whether it returned or panicked. *)
Definition state_of {S A} (o : outcome S A) : S :=
  match o with Done _ s => s | Panicked _ s => s end.

Definition panicked {S A} (o : outcome S A) : bool :=
  match o with Done _ _ => false | Panicked _ _ => true end.

(** ** Event names *)

(** One constructor per event type the dispatcher has a channel, a callback
    type and a [switch] case for, in the order of the [switch] statements. *)
Inductive EvtKind : Type :=
  | Ready | Resumed
  | ChannelCreate | ChannelUpdate | ChannelDelete | ChannelPinsUpdate
  | GuildCreate | GuildUpdate | GuildDelete
  | GuildBanAdd | GuildBanRemove
  | GuildEmojisUpdate | GuildIntegrationsUpdate
  | GuildMemberAdd | GuildMemberRemove | GuildMemberUpdate | GuildMembersChunk
  | GuildRoleCreate | GuildRoleUpdate | GuildRoleDelete
  | MessageCreate | MessageUpdate | MessageDelete | MessageDeleteBulk
  | MessageReactionAdd | MessageReactionRemove | MessageReactionRemoveAll
  | PresenceUpdate | TypingStart | UserUpdate
  | VoiceStateUpdate | VoiceServerUpdate | WebhooksUpdate.

#[global] Instance EvtKind_eq_dec : EqDecision EvtKind.
Proof. solve_decision. Defined.

Definition kinds : list EvtKind :=
  [ Ready; Resumed;
    ChannelCreate; ChannelUpdate; ChannelDelete; ChannelPinsUpdate;
    GuildCreate; GuildUpdate; GuildDelete;
    GuildBanAdd; GuildBanRemove;
    GuildEmojisUpdate; GuildIntegrationsUpdate;
    GuildMemberAdd; GuildMemberRemove; GuildMemberUpdate; GuildMembersChunk;
    GuildRoleCreate; GuildRoleUpdate; GuildRoleDelete;
    MessageCreate; MessageUpdate; MessageDelete; MessageDeleteBulk;
    MessageReactionAdd; MessageReactionRemove; MessageReactionRemoveAll;
    PresenceUpdate; TypingStart; UserUpdate;
    VoiceStateUpdate; VoiceServerUpdate; WebhooksUpdate ].

(** [switch name { case C k1: ... case C k2: ... default: ... }] over a family
    of string constants [C]: the first case, in source order, whose constant
    equals [name]. *)
Definition switch_case (C : EvtKind → string) (name : string) : option EvtKind :=
  List.find (λ k, bool_decide (name = C k)) kinds.

(** The gateway's event names, as the protocol (and the test frames
    ["t":"READY"], ["t":"RESUMED"]) spell them. The constants [Key...] and
    [Event...] themselves are declared outside the available sources; every
    definition below takes them as a parameter, and this table is used only
    to evaluate the definitions on concrete inputs. *)
Definition gatewayName (k : EvtKind) : string :=
  match k with
  | Ready => "READY" | Resumed => "RESUMED"
  | ChannelCreate => "CHANNEL_CREATE" | ChannelUpdate => "CHANNEL_UPDATE"
  | ChannelDelete => "CHANNEL_DELETE" | ChannelPinsUpdate => "CHANNEL_PINS_UPDATE"
  | GuildCreate => "GUILD_CREATE" | GuildUpdate => "GUILD_UPDATE"
  | GuildDelete => "GUILD_DELETE"
  | GuildBanAdd => "GUILD_BAN_ADD" | GuildBanRemove => "GUILD_BAN_REMOVE"
  | GuildEmojisUpdate => "GUILD_EMOJIS_UPDATE"
  | GuildIntegrationsUpdate => "GUILD_INTEGRATIONS_UPDATE"
  | GuildMemberAdd => "GUILD_MEMBER_ADD" | GuildMemberRemove => "GUILD_MEMBER_REMOVE"
  | GuildMemberUpdate => "GUILD_MEMBER_UPDATE"
  | GuildMembersChunk => "GUILD_MEMBERS_CHUNK"
  | GuildRoleCreate => "GUILD_ROLE_CREATE" | GuildRoleUpdate => "GUILD_ROLE_UPDATE"
  | GuildRoleDelete => "GUILD_ROLE_DELETE"
  | MessageCreate => "MESSAGE_CREATE" | MessageUpdate => "MESSAGE_UPDATE"
  | MessageDelete => "MESSAGE_DELETE" | MessageDeleteBulk => "MESSAGE_DELETE_BULK"
  | MessageReactionAdd => "MESSAGE_REACTION_ADD"
  | MessageReactionRemove => "MESSAGE_REACTION_REMOVE"
  | MessageReactionRemoveAll => "MESSAGE_REACTION_REMOVE_ALL"
  | PresenceUpdate => "PRESENCE_UPDATE" | TypingStart => "TYPING_START"
  | UserUpdate => "USER_UPDATE"
  | VoiceStateUpdate => "VOICE_STATE_UPDATE"
  | VoiceServerUpdate => "VOICE_SERVER_UPDATE"
  | WebhooksUpdate => "WEBHOOKS_UPDATE"
  end.

(** ** Values that cross the dispatcher *)

(** An event box: a pointer to one of the event structs ([*Ready],
    [*ChannelCreate], ...). [box_type] is its dynamic type, [box_value] the
    decoded content it was built from. *)
Record Box (Value : Type) : Type := mkBox {
  box_type : EvtKind;
  box_value : Value;
}.
Arguments mkBox {Value} _ _.
Arguments box_type {Value} _.
Arguments box_value {Value} _.

(** A listener is stored as [interface{}]: any Go value. [Callback k fn] is
    the function [fn] with the callback type of event [k] ([ReadyCallback],
    ...); [Nil] is the nil interface; [Other v] is any value of another
    type. *)
Inductive Listener : Type :=
  | Callback (k : EvtKind) (fn : nat)
  | Nil
  | Other (v : nat).

#[global] Instance Listener_eq_dec : EqDecision Listener.
Proof. solve_decision. Defined.

(** The channels of a [Dispatch]: [allChan] and one channel per event type
    ([evtChan Ready] is [readyChan], and so on). *)
Inductive Chan : Type :=
  | allChan
  | evtChan (k : EvtKind).

#[global] Instance Chan_eq_dec : EqDecision Chan.
Proof. solve_decision. Defined.

(** Goroutines started with a [go] statement. *)
Inductive Task (Value : Type) : Type :=
  | DrainTask                                           (* alwaysListenToChans *)
  | CallbackTask (k : EvtKind) (fn : nat) (b : Box Value) (* go cb(session, box) *)
  | EventHandlerTask.                                    (* go c.eventHandler() *)
Arguments DrainTask {Value}.
Arguments CallbackTask {Value} _ _ _.
Arguments EventHandlerTask {Value}.

(** Lines written to standard output or to the logger. *)
Inductive Output : Type :=
  | TodoChannel (evtName : string)       (* "Implement channel for `%s`" *)
  | TodoCallback (evtName : string)      (* "Implement callback for `%s`" *)
  | TodoEventHandler (evtName : string)  (* "Implement event handler for `%s`" *)
  | LogInfo (msg : string)
  | LogErr (msg : string)
  | LogDead                              (* "Event channel is dead!" *)
  | Newline.

(** ** The dispatcher (event_dispatcher.go) *)

Section Dispatcher.
(** The constants [KeyReady], [KeyResumed], ... of package [event]. *)
Variable Key : EvtKind → string.
(** Decoded event content. *)
Context {Value : Type}.

(** [Dispatch]: the two registries, the [shutdown] channel (closed or not)
    and, as traces, what the dispatcher has sent, started and printed.
    The [sync.RWMutex] has no counterpart in this sequential model. *)
Record Dispatch : Type := mkDispatch {
  listeners : gmap string (list Listener);   (* map[string][]interface{} *)
  listenOnceOnly : gmap string (list nat);   (* map[string][]int *)
  shutdown_closed : bool;                    (* close(d.shutdown) was run *)
  sent : list (Chan * Box Value);            (* ch <- v, oldest first *)
  goroutines : list (Task Value);            (* go f(...), oldest first *)
  stdout : list Output;
}.

Definition set_listeners (f : gmap string (list Listener) → gmap string (list Listener))
    (d : Dispatch) : Dispatch :=
  mkDispatch (f (listeners d)) (listenOnceOnly d) (shutdown_closed d)
             (sent d) (goroutines d) (stdout d).
Definition set_listenOnceOnly (f : gmap string (list nat) → gmap string (list nat))
    (d : Dispatch) : Dispatch :=
  mkDispatch (listeners d) (f (listenOnceOnly d)) (shutdown_closed d)
             (sent d) (goroutines d) (stdout d).
Definition set_shutdown_closed (b : bool) (d : Dispatch) : Dispatch :=
  mkDispatch (listeners d) (listenOnceOnly d) b
             (sent d) (goroutines d) (stdout d).

(** [ch <- v]: the value is handed to whoever receives on [ch]. *)
Definition send (ch : Chan) (v : Box Value) : M Dispatch unit :=
  modify (λ d, mkDispatch (listeners d) (listenOnceOnly d) (shutdown_closed d)
                          (sent d ++ [(ch, v)]) (goroutines d) (stdout d)).
(** [go f(...)]: the call is handed to the scheduler, not run here. *)
Definition go (t : Task Value) : M Dispatch unit :=
  modify (λ d, mkDispatch (listeners d) (listenOnceOnly d) (shutdown_closed d)
                          (sent d) (goroutines d ++ [t]) (stdout d)).
Definition printf (o : Output) : M Dispatch unit :=
  modify (λ d, mkDispatch (listeners d) (listenOnceOnly d) (shutdown_closed d)
                          (sent d) (goroutines d) (stdout d ++ [o])).

(** What has been sent on one channel. *)
Definition sent_on (ch : Chan) (d : Dispatch) : list (Box Value) :=
  (filter (λ x, x.1 = ch) (sent d)).*2.

(** [NewDispatch]: empty registries, open channels. *)
Definition NewDispatch : Dispatch := mkDispatch ∅ ∅ false [] [] [].

(** [d.listeners[evtName]]: a missing key reads as the nil slice. *)
Definition listeners_of (d : Dispatch) (evtName : string) : list Listener :=
  default [] (listeners d !! evtName).
Definition listenOnceOnly_of (d : Dispatch) (evtName : string) : list nat :=
  default [] (listenOnceOnly d !! evtName).

(** [start]: [alwaysListenToChans] starts one goroutine that receives on
    every channel until [shutdown] is closed. *)
Definition alwaysListenToChans : M Dispatch unit := go DrainTask.
Definition start : M Dispatch unit := alwaysListenToChans.

(** [stop]: [close(d.shutdown)]; closing a closed channel panics. *)
Definition stop : M Dispatch unit :=
  let* closed := gets shutdown_closed in
  if closed then raise CloseOfClosedChannel
  else modify (set_shutdown_closed true).

(** [AddHandler]. *)
Definition AddHandler (evtName : string) (listener : Listener) : M Dispatch unit :=
  modify (λ d, set_listeners <[evtName := listeners_of d evtName ++ [listener]]> d).

(** [AddHandlerOnce]: also records the position of the new listener. *)
Definition AddHandlerOnce (evtName : string) (listener : Listener) : M Dispatch unit :=
  modify (λ d,
    let index := length (listeners_of d evtName) in
    set_listenOnceOnly <[evtName := listenOnceOnly_of d evtName ++ [index]]>
      (set_listeners <[evtName := listeners_of d evtName ++ [listener]]> d)).

(** The type assertions [box.( *T )] and [listener.(TCallback)]. *)
Definition assertBox (k : EvtKind) (box : Box Value) : M Dispatch (Box Value) :=
  if decide (box_type box = k) then ret box else raise InterfaceConversion.
Definition assertCallback (k : EvtKind) (listener : Listener) : M Dispatch nat :=
  match listener with
  | Callback k' fn => if decide (k' = k) then ret fn else raise InterfaceConversion
  | _ => raise InterfaceConversion
  end.

(** [triggerChan]: one case per event type, each sending the box on the
    channel of that type; [ctx] and [session] are not used. *)
Definition triggerChan (evtName : string) (box : Box Value) : M Dispatch unit :=
  match switch_case Key evtName with
  | Some k => let* b := assertBox k box in send (evtChan k) b
  | None => printf (TodoChannel evtName)
  end.

(** One case of the [switch] in [triggerCallbacks]:
    [for _, listener := range ls { go (listener.(TCallback))(session, box.( *T )) }].
    The function value and the argument of a [go] statement are evaluated
    by the caller, so a failed assertion panics here. *)
Fixpoint callbackLoop (k : EvtKind) (box : Box Value) (ls : list Listener)
    : M Dispatch unit :=
  match ls with
  | [] => ret tt
  | listener :: rest =>
      let* fn := assertCallback k listener in
      let* b := assertBox k box in
      go (CallbackTask k fn b) >>
      callbackLoop k box rest
  end.

(** One round of the removal loop: the slot [index] takes the last
    listener, the last slot is cleared and the slice is cut by one. The
    right-hand side [ls[len-1]] is evaluated before the store to
    [ls[index]]. *)
Definition removeAt (evtName : string) (index : nat) : M Dispatch unit :=
  let* ls := gets (λ d, listeners_of d evtName) in
  match last ls with
  | None => raise (IndexOutOfRange (-1) 0)
  | Some lastListener =>
      if decide (index < length ls) then
        let ls1 := <[index := lastListener]> ls in
        let ls2 := <[length ls - 1 := Nil]> ls1 in
        modify (set_listeners <[evtName := take (length ls - 1) ls2]>)
      else raise (IndexOutOfRange (Z.of_nat index) (length ls))
  end.

Fixpoint removeLoop (evtName : string) (indices : list nat) : M Dispatch unit :=
  match indices with
  | [] => ret tt
  | index :: rest => removeAt evtName index >> removeLoop evtName rest
  end.

(** [triggerCallbacks]: start every listener of the event name, then
    remove the fire-once listeners and forget their positions. *)
Definition triggerCallbacks (evtName : string) (box : Box Value) : M Dispatch unit :=
  (match switch_case Key evtName with
   | Some k => let* ls := gets (λ d, listeners_of d (Key k)) in callbackLoop k box ls
   | None => printf (TodoCallback evtName)
   end) >>
  (let* indices := gets (λ d, listenOnceOnly_of d evtName) in
   removeLoop evtName indices) >>
  modify (set_listenOnceOnly (delete evtName)).

End Dispatcher.

Arguments Dispatch : clear implicits.

(** ** The client *)

(** Calls made on [c.ws], the [websocket.DiscordWebsocket] the client owns.
    Its implementation is outside the available sources: the calls are
    recorded, and the errors it returns are parameters. *)
Inductive WsCall (SocketCommand Data : Type) : Type :=
  | WsConnect
  | WsDisconnect
  | WsEmit (command : SocketCommand) (data : Data)
  | WsRegisterEvent (event : string).
Arguments WsConnect {SocketCommand Data}.
Arguments WsDisconnect {SocketCommand Data}.
Arguments WsEmit {SocketCommand Data} _ _.
Arguments WsRegisterEvent {SocketCommand Data} _.

(** [Client]: the dispatcher, the websocket (as the calls made on it so far)
    and, as traces, the goroutines the client itself started and the lines it
    logged. *)
Record Client (Value SocketCommand Data : Type) : Type := mkClient {
  evtDispatch : Dispatch Value;
  ws : list (WsCall SocketCommand Data);
  tasks : list (Task Value);
  log : list Output;
}.
Arguments mkClient {Value SocketCommand Data} _ _ _ _.
Arguments evtDispatch {Value SocketCommand Data} _.
Arguments ws {Value SocketCommand Data} _.
Arguments tasks {Value SocketCommand Data} _.
Arguments log {Value SocketCommand Data} _.

Section ClientState.
Context {Value SocketCommand Data : Type}.
Abbreviation Client := (Client Value SocketCommand Data).

(** A method of [c.evtDispatch] run from a method of the client. *)
Definition onDispatch {A} (m : M (Dispatch Value) A) : M Client A :=
  λ c, match m (evtDispatch c) with
       | Done a d => Done a (mkClient d (ws c) (tasks c) (log c))
       | Panicked p d => Panicked p (mkClient d (ws c) (tasks c) (log c))
       end.

Definition wsCall (call : WsCall SocketCommand Data) : M Client unit :=
  modify (λ c, mkClient (evtDispatch c) (ws c ++ [call]) (tasks c) (log c)).
Definition goClient (t : Task Value) : M Client unit :=
  modify (λ c, mkClient (evtDispatch c) (ws c) (tasks c ++ [t]) (log c)).
Definition logLine (o : Output) : M Client unit :=
  modify (λ c, mkClient (evtDispatch c) (ws c) (tasks c) (log c ++ [o])).
Definition logInfo (msg : string) : M Client unit := logLine (LogInfo msg).
Definition logErr (msg : string) : M Client unit := logLine (LogErr msg).

(** Every goroutine the engine has started: the dispatcher's and the
    client's own. *)
Definition started (c : Client) : list (Task Value) :=
  goroutines (evtDispatch c) ++ tasks c.
End ClientState.

(** A client that has made no call yet, over a new dispatcher. *)
Definition newClient {Value SocketCommand Data} : Client Value SocketCommand Data :=
  mkClient NewDispatch [] [] [].

(** A websocket whose calls succeed, and one whose [Connect] fails. *)
Definition wsSucceeds {SocketCommand Data}
    (_ : list (WsCall SocketCommand Data)) : option string := None.
Definition wsFails {SocketCommand Data} (msg : string)
    (_ : list (WsCall SocketCommand Data)) : option string := Some msg.

Section Lifecycle.
Context {Value SocketCommand Data : Type}.
Abbreviation Client := (Client Value SocketCommand Data).
Abbreviation WsCall := (WsCall SocketCommand Data).

(** What [c.ws.Connect()] and [c.ws.Disconnect()] return ([None] is a nil
    error, [Some msg] an error with that message), given the calls made on
    the websocket before. *)
Variable wsConnectResult : list WsCall → option string.
Variable wsDisconnectResult : list WsCall → option string.

Definition ws_Connect : M Client (option string) :=
  let* err := gets (λ c, wsConnectResult (ws c)) in
  wsCall WsConnect >> ret err.
Definition ws_Disconnect : M Client (option string) :=
  let* err := gets (λ c, wsDisconnectResult (ws c)) in
  wsCall WsDisconnect >> ret err.

(** [Client.Connect]. *)
Definition Connect : M Client (option string) :=
  logInfo "Connecting to discord Gateway" >>
  onDispatch start >>
  let* err := ws_Connect in
  match err with
  | Some e => logErr e >> ret (Some e)
  | None =>
      logInfo "Connected" >>
      goClient EventHandlerTask >>
      ret None
  end.

(** [Client.Disconnect]. *)
Definition Disconnect : M Client (option string) :=
  logLine Newline >>
  logInfo "Closing Discord gateway connection" >>
  onDispatch stop >>
  let* err := ws_Disconnect in
  match err with
  | Some e => logErr e >> ret (Some e)
  | None => logInfo "Disconnected" >> ret None
  end.

(** [Client.On] and [Client.Once]. *)
Fixpoint addHandlers (add : string → Listener → M (Dispatch Value) unit)
    (event : string) (handlers : list Listener) : M Client unit :=
  match handlers with
  | [] => ret tt
  | handler :: rest => onDispatch (add event handler) >> addHandlers add event rest
  end.
Definition On (event : string) (handlers : list Listener) : M Client unit :=
  wsCall (WsRegisterEvent event) >> addHandlers AddHandler event handlers.
Definition Once (event : string) (handlers : list Listener) : M Client unit :=
  wsCall (WsRegisterEvent event) >> addHandlers AddHandlerOnce event handlers.

(** [Client.Emit]: the three commands named in the [case] go on to
    [c.ws.Emit]; the [default] branch returns. [SocketCommand] and the
    three constants are declared outside the available sources. *)
Context `{EqDecision SocketCommand}.
Variables CommandUpdateStatus CommandUpdateVoiceState
          CommandRequestGuildMembers : SocketCommand.

Definition Emit (command : SocketCommand) (data : Data) : M Client unit :=
  if bool_decide (command = CommandUpdateStatus)
     || bool_decide (command = CommandUpdateVoiceState)
     || bool_decide (command = CommandRequestGuildMembers)
  then wsCall (WsEmit command data)
  else ret tt.
End Lifecycle.

(** ** Decoding and the event handler *)

(** The struct a frame's data is decoded into: the event box itself, or the
    [Channel], [Guild] or [Message] that three event types each share. *)
Inductive Target : Type :=
  | IntoBox (k : EvtKind)
  | IntoChannel
  | IntoGuild
  | IntoMessage.

Definition target (k : EvtKind) : Target :=
  match k with
  | ChannelCreate | ChannelUpdate | ChannelDelete => IntoChannel
  | GuildCreate | GuildUpdate | GuildDelete => IntoGuild
  | MessageCreate | MessageUpdate | MessageDelete => IntoMessage
  | _ => IntoBox k
  end.

(** What is received from [c.socketEvtChan]: an event, or the zero value of a
    closed channel. *)
Inductive Recv : Type :=
  | Frame (evtName : string) (data : string)
  | Closed.

Section EventHandler.
(** [KeyReady], ... of package [event] and [EventReady], ... of package
    [disgord]. *)
Variable Key : EvtKind → string.
Variable Event : EvtKind → string.
Context {Value SocketCommand Data : Type}.
Abbreviation Client := (Client Value SocketCommand Data).

(** [json.Unmarshal(data, box)]: [None] when it returns an error. *)
Variable json_Unmarshal : Target → string → option Value.

(** [Unmarshal] (event_dispatcher.go): a decode error is a panic. *)
Definition Unmarshal (t : Target) (data : string) : result Value :=
  match json_Unmarshal t data with
  | Some v => Ok v
  | None => Panic DecodeError
  end.

(** The decode helper [unmarshal] the event handler calls is not among the
    available sources; the handler uses it as a statement, so all it can
    do to the handler is return (having filled the box) or panic. *)
Variable unmarshal : Target → string → result Value.

(** One round of the [for { select { ... } }] in [eventHandler]. For a
    recognised name the data is decoded, the box of that event type is
    built from it, and the box is handed to [triggerChan] and then to
    [triggerCallbacks]. On a closed channel [break] leaves the [select]
    only, and the loop goes on. *)
Definition handleRecv (r : Recv) : M Client unit :=
  match r with
  | Closed => logLine LogDead
  | Frame evtName data =>
      match switch_case Event evtName with
      | Some k =>
          let* v := lift (unmarshal (target k) data) in
          let box := mkBox k v in
          onDispatch (triggerChan Key evtName box) >>
          onDispatch (triggerCallbacks Key evtName box)
      | None => logLine (TodoEventHandler evtName)
      end
  end.

(** [eventHandler] on the values its channel delivers, oldest first. *)
Fixpoint eventHandler (received : list Recv) : M Client unit :=
  match received with
  | [] => ret tt
  | r :: rest => handleRecv r >> eventHandler rest
  end.
End EventHandler.

(** A decoder to evaluate with: empty data is not JSON, anything else
    decodes to itself. *)
Definition decodeNonEmpty (_ : Target) (data : string) : option string :=
  if bool_decide (data = "") then None else Some data.

(** *** Runs of the dispatcher and of the handler *)


(** What a received value should put on a channel: for a frame whose name
    has a case in the handler and whose data the helper decodes, the box of
    that case, on the channel of the case the dispatcher has for the name;
    nothing when the dispatcher has no case for the name; for anything else,
    nothing. *)
Definition expected_send {Value} (Key Event : EvtKind → string)
    (unmarshal : Target → string → result Value) (r : Recv)
    : option (Chan * Box Value) :=
  match r with
  | Frame evtName data =>
      match switch_case Event evtName with
      | Some k =>
          match unmarshal (target k) data with
          | Ok v =>
              match switch_case Key evtName with
              | Some k' => Some (evtChan k', mkBox k v)
              | None => None
              end
          | Panic _ => None
          end
      | None => None
      end
  | Closed => None
  end.

(** ** Event tracking of the websocket client *)

Module websocket.

(** Modelled from the spec: [Client.RegisterEvent], [Client.RemoveEvent] and
    the [trackedEvents] field of package [websocket] are missing (only
    client_test.go is available). The specification describes them as
    reference-counted interest tracking: a name stays tracked while its
    registration count is greater than zero. [trackedEvents] holds one entry
    per tracked name with its count; [len(m.trackedEvents)], which the tests
    read, is the number of entries. *)
Record Client : Type := mkClient {
  trackedEvents : gmap string nat;
}.

(** [Client{}], the value the tests start from. *)
Definition zeroClient : Client := mkClient ∅.

(** The registration count of a name; zero when there is no entry. *)
Definition count (m : Client) (event : string) : nat :=
  default 0 (trackedEvents m !! event).

(** A name is tracked when it has an entry. *)
Definition tracked (m : Client) (event : string) : bool :=
  bool_decide (is_Some (trackedEvents m !! event)).

(** Modelled from the spec: [Client.RegisterEvent] (missing) adds one to the
    registration count of the name. *)
Definition RegisterEvent (event : string) (m : Client) : Client :=
  mkClient (<[event := S (count m event)]> (trackedEvents m)).

(** Modelled from the spec: [Client.RemoveEvent] (missing) takes one from the
    registration count of the name and untracks the name when the count
    reaches zero; removing a name that is not tracked changes nothing. *)
Definition RemoveEvent (event : string) (m : Client) : Client :=
  match count m event with
  | S (S n) => mkClient (<[event := S n]> (trackedEvents m))
  | _ => mkClient (delete event (trackedEvents m))
  end.

(** The two calls of the application-facing surface. *)
Inductive Call : Type :=
  | Register (event : string)
  | Remove (event : string).

Definition call (c : Call) (m : Client) : Client :=
  match c with
  | Register event => RegisterEvent event m
  | Remove event => RemoveEvent event m
  end.

(** A sequence of calls, first call first. *)
Definition calls (cs : list Call) (m : Client) : Client :=
  foldl (λ m c, call c m) m cs.

(** Every stored count is positive: an entry is deleted, not set to zero. *)
Definition counts_positive (m : Client) : Prop :=
  ∀ event n, trackedEvents m !! event = Some n → 0 < n.

End websocket.

(** ** Channels (struct_channel.go) *)

Abbreviation Snowflake := N.

(** [PermissionOverwrite]. *)
Record PermissionOverwrite : Type := mkPermissionOverwrite {
  overwrite_ID : Snowflake;
  overwrite_Type : string;
  overwrite_Allow : Z;
  overwrite_Deny : Z;
}.

(** [Channel]. [uint] fields are natural numbers, the optional [*string]
    fields are options; [User] and [Timestamp] are declared in other files
    and stay abstract; the embedded [Lockable] has no content. *)
Record Channel (User Timestamp : Type) : Type := mkChannel {
  ID : Snowflake;
  Type_ : N;
  GuildID : Snowflake;
  Position : N;
  PermissionOverwrites : list PermissionOverwrite;
  Name : string;
  Topic : option string;
  NSFW : bool;
  LastMessageID : Snowflake;
  Bitrate : N;
  UserLimit : N;
  RateLimitPerUser : N;
  Recipients : list User;
  Icon : option string;
  OwnerID : Snowflake;
  ApplicationID : Snowflake;
  ParentID : Snowflake;
  LastPinTimestamp : Timestamp;
  complete : bool;
  recipientsIDs : list Snowflake;
}.
Arguments Name {User Timestamp} _.
Arguments Topic {User Timestamp} _.
Arguments RateLimitPerUser {User Timestamp} _.

(** [len(s)] of a Go string: its number of bytes. *)
Definition len (s : string) : nat := String.length s.

(** [Channel.valid]. *)
Definition valid {User Timestamp} (c : Channel User Timestamp) : bool :=
  if bool_decide (120 < RateLimitPerUser c)%N then false
  else if match Topic c with
          | Some topic => bool_decide (1024 < len topic)
          | None => false
          end then false
  else if bool_decide (Name c ≠ "")
          && (bool_decide (100 < len (Name c)) || bool_decide (len (Name c) < 2))
       then false
  else true.

(** ** The tlru cache list *)

Module tlru.

(** Addresses of [CacheItem]s: the list stores [*CacheItem], and one item
    can be reachable under several keys. *)
Abbreviation ptr := positive.

(** What [!=] needs to know of an [interface{}] value: its dynamic type,
    and whether that type is comparable (slices, maps and functions, and the
    structs and arrays that hold them, are not). *)
Class Interface (Content : Type) : Type := mkInterface {
  dynamicType : Content → string;
  comparableType : string → bool;
}.

(** Contents to evaluate with: numbers, which are comparable, and slices of
    numbers, which are not. *)
#[global] Instance nat_Interface : Interface nat :=
  mkInterface nat (λ _, "int") (λ _, true).
#[global] Instance slice_Interface : Interface (list nat) :=
  mkInterface (list nat) (λ _, "[]int") (λ _, false).

(** [int64] arithmetic wraps around. *)
Definition wrap64 (z : Z) : Z := ((z + 2 ^ 63) mod 2 ^ 64 - 2 ^ 63)%Z.

Section CacheList.
(** The cached content, an [interface{}] compared with [!=]: values of
    different dynamic types differ, values of one comparable type are
    compared by [==], taken to be the equality of [Content], and comparing
    values of one uncomparable type panics. *)
Context {Content : Type} `{EqDecision Content} `{Interface Content}.

Definition uncomparable (a b : Content) : bool :=
  bool_decide (dynamicType a = dynamicType b) && negb (comparableType (dynamicType a)).

Record CacheItem : Type := mkCacheItem {
  item : Content;
  death : Z;      (* int64 unix nanoseconds *)
  lastUsed : Z;   (* int64 unix nanoseconds *)
}.

#[global] Instance CacheItem_eq_dec : EqDecision CacheItem.
Proof. solve_decision. Defined.

Record CacheList : Type := mkCacheList {
  items : gmap Snowflake ptr;   (* map[Snowflake]*CacheItem *)
  limit : N;                    (* 0 == unlimited *)
  lifetime : Z;                 (* 0 == unlimited *)
  misses : N;
  hits : N;
}.

(** The memory the methods run in: the items allocated so far and the list. *)
Record Mem : Type := mkMem {
  heap : gmap ptr CacheItem;
  cache : CacheList;
}.

Definition set_items (f : gmap Snowflake ptr → gmap Snowflake ptr) (s : Mem) : Mem :=
  mkMem (heap s)
        (mkCacheList (f (items (cache s))) (limit (cache s)) (lifetime (cache s))
                     (misses (cache s)) (hits (cache s))).
Definition set_heap (f : gmap ptr CacheItem → gmap ptr CacheItem) (s : Mem) : Mem :=
  mkMem (f (heap s)) (cache s).

(** [NewCacheList]. *)
Definition NewCacheList (size : N) (lifetime : Z) : CacheList :=
  mkCacheList ∅ size lifetime 0 0.

(** The order in which one [range] over the map visits its entries. Go
    leaves it unspecified; any enumeration of the entries is possible. *)
Record MapOrder : Type := mkMapOrder {
  order_of : gmap Snowflake ptr → list (Snowflake * ptr);
  order_perm : ∀ m, order_of m ≡ₚ map_to_list m;
}.

(** The entries of a map with the entry of [key], if there is one, first. *)
Definition entriesFrom (key : Snowflake) (m : gmap Snowflake ptr)
    : list (Snowflake * ptr) :=
  match m !! key with
  | Some p => (key, p) :: map_to_list (delete key m)
  | None => map_to_list m
  end.

(** An iteration that starts at [key] whenever [key] is in the map. *)
Program Definition startingAt (key : Snowflake) : MapOrder :=
  mkMapOrder (entriesFrom key) _.
Next Obligation.
  intros key m. unfold entriesFrom.
  destruct (m !! key) as [p|] eqn:Hp; [|done].
  by apply map_to_list_delete.
Qed.

(** Reading through a pointer; a pointer to nothing panics. *)
Definition deref (p : option ptr) : M Mem CacheItem :=
  let* h := gets heap in
  match p ≫= (h !!.) with
  | Some it => ret it
  | None => raise NilDereference
  end.

(** [CacheItem.update], with the clock reading [now] of [time.Now()]. *)
Definition update (p : ptr) (now : Z) : M Mem unit :=
  let* it := deref (Some p) in
  modify (set_heap <[p := mkCacheItem (item it) (death it) now]>).

(** [list.size()]. *)
Definition size_of (l : CacheList) : N := N.of_nat (size (items l)).

(** [First]: the entry the iteration starts with, or [(nil, 0)]. *)
Definition First (o : MapOrder) : M Mem (option ptr * Snowflake) :=
  let* m := gets (λ s, items (cache s)) in
  match order_of o m with
  | (key, it) :: _ => ret (Some it, key)
  | [] => ret (None, 0%N)
  end.

(** The loop of [removeLRU] over the entries still to visit. *)
Fixpoint lruLoop (exception : Snowflake) (entries : list (Snowflake * ptr))
    (lru : option ptr) (lruKey : Snowflake) : M Mem (option ptr * Snowflake) :=
  match entries with
  | [] => ret (lru, lruKey)
  | (key, it) :: rest =>
      if bool_decide (key ≠ exception) then
        let* i := deref (Some it) in
        let* l := deref lru in
        if bool_decide (lastUsed i < lastUsed l)%Z
        then lruLoop exception rest (Some it) key
        else lruLoop exception rest lru lruKey
      else lruLoop exception rest lru lruKey
  end.

(** [removeLRU]; [first] and [loop] are the orders of its two iterations. *)
Definition removeLRU (first loop : MapOrder) (exception : Snowflake) : M Mem unit :=
  let* start := First first in
  let* m := gets (λ s, items (cache s)) in
  let* found := lruLoop exception (order_of loop m) start.1 start.2 in
  modify (set_items (delete found.2)).

(** [CacheList.Set]. Under a stored key the two contents are compared with
    [!=], which panics when both are of one uncomparable dynamic type. *)
Definition Set_ (first loop : MapOrder) (now : Z) (id : Snowflake) (newItem : ptr)
    : M Mem unit :=
  update newItem now >>
  let* m := gets (λ s, items (cache s)) in
  match m !! id with
  | Some old =>
      let* o := deref (Some old) in
      let* n := deref (Some newItem) in
      if uncomparable (item o) (item n) then raise UncomparableType
      else if bool_decide (item o ≠ item n) || bool_decide (old ≠ newItem)
      then modify (set_heap <[old := n]>)
      else ret tt
  | None =>
      modify (set_items <[id := newItem]>) >>
      let* l := gets cache in
      if bool_decide (limit l = 0%N) || bool_decide (size_of l ≤ limit l)%N
      then ret tt
      else removeLRU first loop id
  end.

(** One [Set] call with everything it depends on from outside. *)
Record SetCall : Type := mkSetCall {
  call_first : MapOrder;
  call_loop : MapOrder;
  call_now : Z;
  call_id : Snowflake;
  call_item : ptr;
}.

Definition runSet (c : SetCall) : M Mem unit :=
  Set_ (call_first c) (call_loop c) (call_now c) (call_id c) (call_item c).

(** A sequence of [Set] calls; a call that panics does not stop the later
    ones from being considered (the caller may recover). *)
Definition runSets (cs : list SetCall) (s : Mem) : Mem :=
  foldl (λ s c, state_of (runSet c s)) s cs.

(** Every pointer stored in the list points to an allocated item. *)
Definition items_allocated (s : Mem) : Prop :=
  ∀ key p, items (cache s) !! key = Some p → is_Some (heap s !! p).

(** The invariant of a list built with a non-zero limit [n]. *)
Definition within_limit (n : N) (s : Mem) : Prop :=
  limit (cache s) = n ∧ (size_of (cache s) ≤ n)%N ∧ items_allocated s.

(** The time of last use of the item stored under a key. *)
Definition lastUsed_of (s : Mem) (key : Snowflake) : option Z :=
  p ← items (cache s) !! key; it ← heap s !! p; Some (lastUsed it).

(** *** The other methods of the list *)

(** [uint64] increment, as [list.hits++]. *)
Definition incr64 (n : N) : N := ((n + 1) mod 2 ^ 64)%N.

Definition set_hits (f : N → N) (s : Mem) : Mem :=
  mkMem (heap s)
        (mkCacheList (items (cache s)) (limit (cache s)) (lifetime (cache s))
                     (misses (cache s)) (f (hits (cache s)))).
Definition set_misses (f : N → N) (s : Mem) : Mem :=
  mkMem (heap s)
        (mkCacheList (items (cache s)) (limit (cache s)) (lifetime (cache s))
                     (f (misses (cache s))) (hits (cache s))).

(** [&CacheItem{...}]: a new item at an address not in use. *)
Definition alloc (it : CacheItem) : M Mem ptr :=
  let* h := gets heap in
  let p := fresh (dom h) in
  modify (set_heap <[p := it]>) >> ret p.

(** [NewCacheItem], with [now] the [UnixNano] of the clock reading;
    [lastUsed] starts at 0. [time.Now().Add(lifetime).UnixNano()] is the
    sum in [int64] nanoseconds, which wraps around. *)
Definition NewCacheItem (now : Z) (content : Content) (lifetime : Z) : M Mem ptr :=
  alloc (mkCacheItem content (wrap64 (now + lifetime)) 0).

(** [CacheList.CreateCacheableItem]. *)
Definition CreateCacheableItem (now : Z) (content : Content) : M Mem ptr :=
  let* l := gets cache in NewCacheItem now content (lifetime l).

(** [CacheItem.Object] and [CacheItem.Set] (named apart from the list's
    [Set]). *)
Definition Object (p : ptr) : M Mem Content :=
  let* it := deref (Some p) in ret (item it).
Definition CacheItem_Set (p : ptr) (v : Content) : M Mem unit :=
  let* it := deref (Some p) in
  modify (set_heap <[p := mkCacheItem v (death it) (lastUsed it)]>).

(** [CacheItem.dead]. *)
Definition dead (it : CacheItem) (now : Z) : bool := bool_decide (death it ≤ now)%Z.

(** [CacheList.RefreshAfterDiscordUpdate]; the two clock readings are the
    one inside [update] and the one for [death]. *)
Definition RefreshAfterDiscordUpdate (now1 now2 : Z) (p : ptr) : M Mem unit :=
  update p now1 >>
  let* it := deref (Some p) in
  let* l := gets cache in
  modify (set_heap <[p := mkCacheItem (item it) (wrap64 (now2 + lifetime l)) (lastUsed it)]>).

(** [CacheList.Get]: the stored pointer and [true], or [nil] and [false]. *)
Definition Get (now : Z) (id : Snowflake) : M Mem (option ptr * bool) :=
  let* m := gets (λ s, items (cache s)) in
  match m !! id with
  | Some p => update p now >> modify (set_hits incr64) >> ret (Some p, true)
  | None => modify (set_misses incr64) >> ret (None, false)
  end.

(** [CacheList.Delete]. *)
Definition Delete (id : Snowflake) : M Mem unit :=
  let* m := gets (λ s, items (cache s)) in
  match m !! id with
  | Some _ => modify (set_items (delete id))
  | None => ret tt
  end.

(** The content stored under a key, read through the stored pointer. *)
Definition content_of (s : Mem) (key : Snowflake) : option Content :=
  p ← items (cache s) !! key; it ← heap s !! p; Some (item it).

End CacheList.
End tlru.

(** ** Voice states of a guild (cache_voiceState.go) *)

Module voicestate.

Abbreviation ptr := positive.

Section GuildVoiceStates.
(** [VoiceState] is declared outside the available sources. The four named
    fields are the ones cache_voiceState.go reads or writes; [other] stands
    for the rest of the struct. *)
Context {Other : Type}.

Record VoiceState : Type := mkVoiceState {
  GuildID : Snowflake;
  ChannelID : Snowflake;
  UserID : Snowflake;
  SessionID : string;
  other : Other;
}.

(** [Snowflake.Empty] and the content of the copy [VoiceState.DeepCopy]
    returns, both declared outside the available sources. *)
Variable Empty : Snowflake → bool.
Variable DeepCopy : VoiceState → VoiceState.

(** [guildVoiceStatesCache] with the voice states its pointers can reach:
    [sessions] is a slice of [*VoiceState], [None] being nil. *)
Record Mem : Type := mkMem {
  heap : gmap ptr VoiceState;
  sessions : list (option ptr);
}.

Definition set_sessions (f : list (option ptr) → list (option ptr)) (s : Mem) : Mem :=
  mkMem (heap s) (f (sessions s)).
Definition set_heap (f : gmap ptr VoiceState → gmap ptr VoiceState) (s : Mem) : Mem :=
  mkMem (f (heap s)) (sessions s).

(** Reading through a pointer; nil, or a pointer to nothing, panics. *)
Definition deref (p : option ptr) : M Mem VoiceState :=
  let* h := gets heap in
  match p ≫= (h !!.) with
  | Some v => ret v
  | None => raise NilDereference
  end.

(** A new [VoiceState] at an address not in use. *)
Definition alloc (v : VoiceState) : M Mem ptr :=
  let* h := gets heap in
  let p := fresh (dom h) in
  modify (set_heap <[p := v]>) >> ret p.

(** The loop of [sessionPosition] from index [i] on. *)
Fixpoint positionFrom (i : nat) (rest : list (option ptr)) (state : option ptr)
    : M Mem Z :=
  match rest with
  | [] => ret (-1)%Z
  | session :: rest' =>
      let* a := deref session in
      let* b := deref state in
      if bool_decide (UserID a ≠ UserID b) then positionFrom (S i) rest' state
      else if bool_decide (SessionID a = SessionID b) then ret (Z.of_nat i)
      else positionFrom (S i) rest' state
  end.

(** [sessionPosition]. *)
Definition sessionPosition (state : option ptr) : M Mem Z :=
  let* ss := gets sessions in positionFrom 0 ss state.

(** [existingSession]. *)
Definition existingSession (state : option ptr) : M Mem bool :=
  let* pos := sessionPosition state in ret (bool_decide (-1 < pos)%Z).

(** The three statements of the "someone left" branch: the slot [pos] takes
    the last session, the last slot is cleared, the slice is cut by one. *)
Definition removeSession (pos : Z) : M Mem unit :=
  let* ss := gets sessions in
  match last ss with
  | None => raise (IndexOutOfRange (-1) 0)
  | Some lastSession =>
      if bool_decide (0 ≤ pos < Z.of_nat (length ss))%Z then
        let ss1 := <[Z.to_nat pos := lastSession]> ss in
        let ss2 := <[length ss - 1 := None]> ss1 in
        modify (set_sessions (λ _, take (length ss - 1) ss2))
      else raise (IndexOutOfRange pos (length ss))
  end.

(** [guildVoiceStatesCache.update]. *)
Definition update (state : option ptr) (copyOnWrite : bool) : M Mem unit :=
  let* pos := sessionPosition state in
  let* st := deref state in
  if Empty (ChannelID st) then
    (* someone left *)
    if bool_decide (-1 < pos)%Z then removeSession pos else ret tt
  else if bool_decide (pos < 0)%Z then
    (* someone joined: register the session *)
    let* data :=
      (if copyOnWrite
       then let* p := alloc (DeepCopy st) in ret (Some p)
       else ret state) in
    modify (set_sessions (λ ss, ss ++ [data]))
  else
    (* someone moved to another channel *)
    let* ss := gets sessions in
    match ss !! Z.to_nat pos with
    | None => raise (IndexOutOfRange pos (length ss))
    | Some session =>
        let* cur := deref session in
        if bool_decide (ChannelID cur ≠ ChannelID st) then
          match session with
          | Some q =>
              modify (set_heap <[q := mkVoiceState (GuildID cur) (ChannelID st)
                                       (UserID cur) (SessionID cur) (other cur)]>)
          | None => raise NilDereference
          end
        else ret tt
    end.

(** A run of [update] calls, one after the other, on states of the heap;
    a panic ends the run. *)
Fixpoint updates (calls : list (ptr * bool)) : M Mem unit :=
  match calls with
  | [] => ret tt
  | c :: rest => update (Some c.1) c.2 >> updates rest
  end.

(** The voice states the slice holds, read through its pointers, in order. *)
Definition represents (s : Mem) (vs : list VoiceState) : Prop :=
  Forall2 (λ session v, ∃ p, session = Some p ∧ heap s !! p = Some v) (sessions s) vs.

(** What identifies a session: the user and the session id. *)
Definition key (v : VoiceState) : Snowflake * string := (UserID v, SessionID v).

(** The index [sessionPosition] is to return on a slice holding [vs]. *)
Definition position (st : VoiceState) (vs : list VoiceState) : Z :=
  match list_find (λ v, key v = key st) vs with
  | Some (i, _) => Z.of_nat i
  | None => (-1)%Z
  end.

End GuildVoiceStates.
End voicestate.

(** ** Channels: comparing, copying, saving (struct_channel.go) *)

Arguments ID {User Timestamp} _.
Arguments Type_ {User Timestamp} _.
Arguments GuildID {User Timestamp} _.
Arguments Position {User Timestamp} _.
Arguments PermissionOverwrites {User Timestamp} _.
Arguments NSFW {User Timestamp} _.
Arguments LastMessageID {User Timestamp} _.
Arguments Bitrate {User Timestamp} _.
Arguments UserLimit {User Timestamp} _.
Arguments Recipients {User Timestamp} _.
Arguments Icon {User Timestamp} _.
Arguments OwnerID {User Timestamp} _.
Arguments ApplicationID {User Timestamp} _.
Arguments ParentID {User Timestamp} _.
Arguments LastPinTimestamp {User Timestamp} _.
Arguments complete {User Timestamp} _.
Arguments recipientsIDs {User Timestamp} _.

Module channel.

(** The channel types, an [iota] block. *)
Definition ChannelTypeGuildText : N := 0.
Definition ChannelTypeDM : N := 1.
Definition ChannelTypeGuildVoice : N := 2.
Definition ChannelTypeGroupDM : N := 3.
Definition ChannelTypeGuildCategory : N := 4.

Section Channels.
Context {User Timestamp Error : Type}.
Abbreviation Channel := (Channel User Timestamp).

(** Declared outside the available sources: [Snowflake.Empty]; a
    recipient's [DeepCopy] (asserted back to [*User]); the zero
    [Timestamp]; the error constructors. [errors.New] builds a value of the
    same abstract error type. The recipients are [*User] values:
    [User_ID] reads the [ID] through one, and is [None] on a nil
    recipient, where the read panics. *)
Variable Empty : Snowflake → bool.
Variable User_DeepCopy : User → User.
Variable User_ID : User → option Snowflake.
Variable zeroTimestamp : Timestamp.
Variable newErrorUnsupportedType : string → Error.
Variable newErrorEmptyValue : string → Error.
Variable newErrorMissingSnowflake : string → Error.
Variable errors_New : string → Error.

(** [NewChannel]: [&Channel{}], every field at its zero value. *)
Definition NewChannel : Channel :=
  mkChannel User Timestamp 0 0 0 0 [] "" None false 0 0 0 0 [] None 0 0 0
            zeroTimestamp false [].

(** An [interface{}] argument: a [*Channel] (nil, or pointing to a channel
    with the given content) or a value of another type. *)
Inductive Value : Type :=
  | ChannelPtr (c : option Channel)
  | OtherValue.

(** [Channel.Compare], receiver and argument possibly nil. *)
Definition Compare (c other : option Channel) : result bool :=
  match c, other with
  | None, None => Ok true
  | _, None => Ok false
  | None, Some _ => Panic NilDereference
  | Some a, Some b => Ok (bool_decide (ID a = ID b))
  end.

(** [Channel.CopyOverTo] on a receiver that is not nil: the content of the
    argument afterwards, and the error. Receiver and argument are different
    objects. *)
Definition CopyOverTo (c : Channel) (other : Value) : result (Value * option Error) :=
  match other with
  | OtherValue =>
      Ok (OtherValue, Some (newErrorUnsupportedType "argument given is not a *Channel type"))
  | ChannelPtr None => Panic NilDereference
  | ChannelPtr (Some channel) =>
      Ok (ChannelPtr (Some
            (mkChannel User Timestamp
               (ID c) (Type_ c) (GuildID c) (Position c) (PermissionOverwrites c)
               (Name c) (Topic c) (NSFW c) (LastMessageID c) (Bitrate c)
               (UserLimit c) (RateLimitPerUser c)
               (Recipients channel ++ (User_DeepCopy <$> Recipients c))
               (Icon c) (OwnerID c) (ApplicationID c) (ParentID c)
               (LastPinTimestamp c)
               (complete channel) (recipientsIDs channel))),
          None)
  end.

(** [Channel.DeepCopy]: the error of [CopyOverTo] is dropped. *)
Definition DeepCopy (c : Channel) : result Value :=
  match CopyOverTo c (ChannelPtr (Some NewChannel)) with
  | Ok (copy, _) => Ok copy
  | Panic p => Panic p
  end.

(** The loop that fills the new slice of recipient ids,
    [ids[i] = c.Recipients[i].ID]: the slice as the loop leaves it, the
    slots it did not reach still zero, and whether it reached the end. *)
Fixpoint recipientIDs (recipients : list User) : list Snowflake * bool :=
  match recipients with
  | [] => ([], true)
  | recipient :: rest =>
      match User_ID recipient with
      | Some id => let filled := recipientIDs rest in (id :: filled.1, filled.2)
      | None => (replicate (S (length rest)) 0%N, false)
      end
  end.

(** [Channel.copyOverToCache] on a receiver that is not nil, as a step on
    the content of the argument. The type assertion is unchecked; the error
    returned is always nil. A nil recipient panics in the middle of the
    call, with the fields before it already written. *)
Definition copyOverToCache (c : Channel) (other : Value) : outcome Value unit :=
  match other with
  | OtherValue => Panicked InterfaceConversion other
  | ChannelPtr None => Panicked NilDereference other
  | ChannelPtr (Some channel) =>
      if bool_decide (Type_ c = ChannelTypeGroupDM) || bool_decide (Type_ c = ChannelTypeDM)
      then
        (* the fields of this branch, with the recipient ids and the
           application id still to be given *)
        let cached (ids : list Snowflake) (applicationID : Snowflake) : Channel :=
          if bool_decide (Type_ c = ChannelTypeGroupDM) then
            mkChannel User Timestamp
              (ID c) (Type_ c) (GuildID channel) (Position channel)
              (PermissionOverwrites channel) (Name c) (Topic channel) (NSFW channel)
              (LastMessageID c) (Bitrate channel) (UserLimit channel)
              (RateLimitPerUser channel) (Recipients channel) (Icon c) (OwnerID c)
              applicationID (ParentID channel) (LastPinTimestamp c)
              (complete channel) ids
          else
            mkChannel User Timestamp
              (ID c) (Type_ c) (GuildID channel) (Position channel)
              (PermissionOverwrites channel) (Name channel) (Topic channel)
              (NSFW channel) (LastMessageID c) (Bitrate channel) (UserLimit channel)
              (RateLimitPerUser channel) (Recipients channel) (Icon channel)
              (OwnerID channel) applicationID (ParentID channel)
              (LastPinTimestamp channel) (complete channel) ids in
        if bool_decide (length (recipientsIDs c) = length (Recipients c)) then
          Done tt (ChannelPtr (Some (cached (recipientsIDs c) (ApplicationID c))))
        else
          let filled := recipientIDs (Recipients c) in
          if filled.2
          then Done tt (ChannelPtr (Some (cached filled.1 (ApplicationID c))))
          else Panicked NilDereference
                 (ChannelPtr (Some (cached filled.1 (ApplicationID channel))))
      else
        Done tt (ChannelPtr (Some
          (if bool_decide (Type_ c = ChannelTypeGuildText) then
             mkChannel User Timestamp
               (ID c) (Type_ c) (GuildID c) (Position c) (PermissionOverwrites c)
               (Name c) (Topic c) (NSFW c) (LastMessageID c) (Bitrate channel)
               (UserLimit channel) (RateLimitPerUser c) (Recipients channel)
               (Icon channel) (OwnerID channel) (ApplicationID c) (ParentID c)
               (LastPinTimestamp c) (complete channel) (recipientsIDs channel)
           else if bool_decide (Type_ c = ChannelTypeGuildVoice) then
             mkChannel User Timestamp
               (ID c) (Type_ c) (GuildID c) (Position c) (PermissionOverwrites c)
               (Name c) (Topic channel) (NSFW channel) (LastMessageID channel)
               (Bitrate c) (UserLimit c) (RateLimitPerUser channel)
               (Recipients channel) (Icon channel) (OwnerID channel)
               (ApplicationID c) (ParentID c) (LastPinTimestamp channel)
               (complete channel) (recipientsIDs channel)
           else
             mkChannel User Timestamp
               (ID c) (Type_ c) (GuildID channel) (Position channel)
               (PermissionOverwrites channel) (Name channel) (Topic channel)
               (NSFW channel) (LastMessageID channel) (Bitrate channel)
               (UserLimit channel) (RateLimitPerUser channel) (Recipients channel)
               (Icon channel) (OwnerID channel) (ApplicationID c) (ParentID channel)
               (LastPinTimestamp channel) (complete channel) (recipientsIDs channel))))
  end.

(** When the loop of [copyOverToCache] runs into a nil recipient: the
    channel is a DM or a group DM, its recipient ids are not as many as its
    recipients, and one of the recipients is nil. *)
Definition reads_nil_recipient (c : Channel) : Prop :=
  (Type_ c = ChannelTypeDM ∨ Type_ c = ChannelTypeGroupDM)
  ∧ length (recipientsIDs c) ≠ length (Recipients c)
  ∧ ∃ recipient, recipient ∈ Recipients c ∧ User_ID recipient = None.

(** The fields [saveToDiscord] sets in [CreateGuildChannelParams] and in
    [ModifyChannelParams]; both structs are declared outside the available
    sources. A pointer field is an option, nil being [None]. *)
Record CreateGuildChannelParams : Type := mkCreateGuildChannelParams {
  create_Name : string;
  create_PermissionOverwrites : list PermissionOverwrite;
  create_NSFW : option bool;
  create_Topic : option string;
  create_RateLimitPerUser : option N;
  create_Bitrate : option N;
  create_UserLimit : option N;
  create_ParentID : Snowflake;
}.

Record ModifyChannelParams : Type := mkModifyChannelParams {
  modify_NSFW : option bool;
  modify_Topic : option string;
  modify_RateLimitPerUser : option N;
  modify_Bitrate : option N;
  modify_UserLimit : option N;
  modify_ParentID : option Snowflake;
  modify_Name : option string;
  modify_Position : option N;
  modify_PermissionOverwrites : list PermissionOverwrite;
}.

(** The calls made on the [Session], and a session as its answers: the
    [*Channel] (nil being [None]) and the error of each call. *)
Inductive Request : Type :=
  | CreateGuildChannel (guildID : Snowflake) (params : CreateGuildChannelParams)
  | CreateDM (recipientID : Snowflake)
  | ModifyChannel (id : Snowflake) (changes : ModifyChannelParams)
  | DeleteChannel (id : Snowflake).

Definition Session : Type := Request → option Channel * option Error.

(** What a call leaves behind: the content of the receiver, the error
    returned, and the requests made on the session. *)
Record Saved : Type := mkSaved {
  channel_after : Channel;
  err : option Error;
  requests : list Request;
}.

(** The end of [saveToDiscord] and of [deleteFromDiscord]: with an error the
    receiver is left alone, without one it is overwritten by what the
    session returned. *)
Definition verify (c : Channel) (req : Request) (answer : option Channel * option Error)
    : result Saved :=
  match answer.2 with
  | Some e => Ok (mkSaved c (Some e) [req])
  | None =>
      match answer.1 with
      | Some updated => Ok (mkSaved updated None [req])
      | None => Panic NilDereference
      end
  end.

(** [Channel.saveToDiscord]. *)
Definition saveToDiscord (session : Session) (c : Channel) : result Saved :=
  let guild := bool_decide (Type_ c = ChannelTypeGuildVoice)
               || bool_decide (Type_ c = ChannelTypeGuildText) in
  let text := bool_decide (Type_ c = ChannelTypeGuildText) in
  let voice := bool_decide (Type_ c = ChannelTypeGuildVoice) in
  if Empty (ID c) then
    if bool_decide (Type_ c ≠ ChannelTypeDM) && bool_decide (Type_ c ≠ ChannelTypeGroupDM)
    then
      (* the error of an empty name is assigned and then overwritten *)
      let _ := if bool_decide (Name c = "")
               then Some (newErrorEmptyValue
                            "must have a channel name before creating channel")
               else None in
      let params :=
        mkCreateGuildChannelParams (Name c) (PermissionOverwrites c)
          (if text then Some (NSFW c) else None)
          (if text then Topic c else None)
          (if text then Some (RateLimitPerUser c) else None)
          (if text then None else if voice then Some (Bitrate c) else None)
          (if text then None else if voice then Some (UserLimit c) else None)
          (if guild then ParentID c else 0%N) in
      let req := CreateGuildChannel (GuildID c) params in
      verify c req (session req)
    else if bool_decide (Type_ c = ChannelTypeDM) then
      match Recipients c with
      | [recipient] =>
          match User_ID recipient with
          | Some recipientID =>
              let req := CreateDM recipientID in
              verify c req (session req)
          | None => Panic NilDereference
          end
      | recipients =>
          Ok (mkSaved c
                (Some (errors_New
                   ("must have only one recipient in Channel.Recipient (with ID) for creating a DM. Got "
                    ++ pretty (length recipients))))
                [])
      end
    else if bool_decide (Type_ c = ChannelTypeGroupDM) then
      Ok (mkSaved c
            (Some (errors_New
                     "creating group DM using SaveToDiscord has not been implemented"))
            [])
    else
      Ok (mkSaved c
            (Some (errors_New
                     "cannot save to discord. Does not recognise what needs to be saved"))
            [])
  else
    let dm := bool_decide (Type_ c = ChannelTypeDM)
              || bool_decide (Type_ c = ChannelTypeGroupDM) in
    let changes :=
      mkModifyChannelParams
        (if dm then None else if text then Some (NSFW c) else None)
        (if dm then None else if text then Topic c else None)
        (if dm then None else if text then Some (RateLimitPerUser c) else None)
        (if dm then None else if text then None
         else if voice then Some (Bitrate c) else None)
        (if dm then None else if text then None
         else if voice then Some (UserLimit c) else None)
        (if guild then Some (ParentID c) else None)
        (if bool_decide (Name c ≠ "") then Some (Name c) else None)
        (Some (Position c))
        (PermissionOverwrites c) in
    let req := ModifyChannel (ID c) changes in
    verify c req (session req).

(** [Channel.deleteFromDiscord]. *)
Definition deleteFromDiscord (session : Session) (c : Channel) : result Saved :=
  if Empty (ID c) then
    Ok (mkSaved c
          (Some (newErrorMissingSnowflake "channel id/snowflake is empty or missing"))
          [])
  else
    let req := DeleteChannel (ID c) in
    verify c req (session req).

End Channels.
End channel.

(** * Properties *)

(** ** The state monad *)

(** An observation of the state that every step leaves alone is left alone
    by their sequence, whether it returns or panics. *)
Lemma bind_preserves {S A B X} (f : S → X) (m : M S A) (k : A → M S B) (s : S) :
  (∀ s, f (state_of (m s)) = f s) →
  (∀ a s, f (state_of (k a s)) = f s) →
  f (state_of (bind m k s)) = f s.
Proof.
  intros Hm Hk. unfold bind. specialize (Hm s).
  destruct (m s) as [a s1|p s1]; simpl in *; [|done].
  by rewrite Hk.
Qed.

(** ** Channel validation *)

(** C10: [valid] returns true exactly when [RateLimitPerUser] is at most
    120, the topic, if there is one, has at most 1024 bytes, and the name is
    empty or has between 2 and 100 bytes. *)
Theorem valid_iff {User Timestamp} (c : Channel User Timestamp) :
  valid c = true ↔
    (RateLimitPerUser c ≤ 120)%N
    ∧ (∀ topic, Topic c = Some topic → (len topic ≤ 1024)%nat)
    ∧ (Name c = "" ∨ (2 ≤ len (Name c) ≤ 100)%nat).
Proof.
  unfold valid. split.
  - intros Hv.
    case_bool_decide as Hrate; [done|].
    destruct (Topic c) as [topic|] eqn:Htopic.
    + case_bool_decide as Hlen; [done|].
      split; [lia|]. split; [intros ? [= <-]; lia|].
      case_bool_decide as Hname; simpl in Hv.
      * repeat case_bool_decide; simpl in Hv; try done. right; lia.
      * left. by destruct (decide (Name c = "")).
    + split; [lia|]. split; [done|].
      case_bool_decide as Hname; simpl in Hv.
      * repeat case_bool_decide; simpl in Hv; try done. right; lia.
      * left. by destruct (decide (Name c = "")).
  - intros (Hrate & Htopic & Hname).
    rewrite bool_decide_eq_false_2 by lia.
    assert (match Topic c with
            | Some topic => bool_decide (1024 < len topic)
            | None => false
            end = false) as ->.
    { destruct (Topic c) as [topic|]; [|done].
      apply bool_decide_eq_false_2. specialize (Htopic topic eq_refl). lia. }
    destruct Hname as [Hname|Hname].
    + by rewrite (bool_decide_eq_false_2 (Name c ≠ "")) by (by intros []).
    + rewrite (bool_decide_eq_false_2 (100 < _)), (bool_decide_eq_false_2 (_ < 2)) by lia.
      by rewrite andb_false_r.
Qed.

(** ** Event tracking *)

Module websocket_facts.
Import websocket.

Lemma counts_positive_zero : counts_positive zeroClient.
Proof. intros event n. simpl. by rewrite lookup_empty. Qed.

Lemma counts_positive_call c m : counts_positive m → counts_positive (call c m).
Proof.
  intros Hm event n. destruct c as [e|e]; simpl.
  - unfold RegisterEvent; simpl. destruct (decide (e = event)) as [->|Hne].
    + rewrite lookup_insert_eq. intros [= <-]. lia.
    + rewrite lookup_insert_ne by done. apply Hm.
  - unfold RemoveEvent. destruct (count m e) as [|[|k]] eqn:Hc; simpl.
    + destruct (decide (e = event)) as [->|Hne].
      * by rewrite lookup_delete_eq.
      * rewrite lookup_delete_ne by done. apply Hm.
    + destruct (decide (e = event)) as [->|Hne].
      * by rewrite lookup_delete_eq.
      * rewrite lookup_delete_ne by done. apply Hm.
    + destruct (decide (e = event)) as [->|Hne].
      * rewrite lookup_insert_eq. intros [= <-]. lia.
      * rewrite lookup_insert_ne by done. apply Hm.
Qed.

Lemma counts_positive_calls cs m : counts_positive m → counts_positive (calls cs m).
Proof.
  revert m. induction cs as [|c cs IH]; intros m Hm; [done|].
  simpl. apply IH. by apply counts_positive_call.
Qed.

Lemma count_RegisterEvent m event : count (RegisterEvent event m) event = S (count m event).
Proof. unfold count at 1, RegisterEvent; simpl. by rewrite lookup_insert_eq. Qed.

Lemma count_RemoveEvent m event : count (RemoveEvent event m) event = pred (count m event).
Proof.
  unfold RemoveEvent. destruct (count m event) as [|[|k]] eqn:Hc; unfold count; simpl.
  - by rewrite lookup_delete_eq.
  - by rewrite lookup_delete_eq.
  - by rewrite lookup_insert_eq.
Qed.

Lemma tracked_count m event :
  counts_positive m → tracked m event = true ↔ 0 < count m event.
Proof.
  intros Hm. unfold tracked, count. rewrite bool_decide_eq_true.
  destruct (trackedEvents m !! event) as [n|] eqn:Hl; simpl.
  - split; [intros _; by eapply Hm | by eauto].
  - split; [by intros [? ?] | lia].
Qed.

(** The assertions of [TestManager_RegisterEvent] and
    [TestManager_RemoveEvent] hold of the model. *)
Example TestManager_RegisterEvent :
  let m1 := RegisterEvent "test" zeroClient in
  let m2 := RegisterEvent "test" m1 in
  size (trackedEvents m1) ≠ 0 ∧ size (trackedEvents m2) ≠ 2.
Proof. by vm_compute. Qed.

Example TestManager_RemoveEvent :
  let m1 := RegisterEvent "test" zeroClient in
  let m2 := RemoveEvent "sdfsdf" m1 in
  let m3 := RemoveEvent "test" m2 in
  size (trackedEvents m1) ≠ 0 ∧ size (trackedEvents m2) ≠ 0
  ∧ size (trackedEvents m3) ≠ 1.
Proof. by vm_compute. Qed.

Lemma tracked_same_count m1 m2 event :
  counts_positive m1 → counts_positive m2 →
  count m1 event = count m2 event → tracked m1 event = tracked m2 event.
Proof.
  intros H1 H2 Hc.
  pose proof (tracked_count m1 event H1) as T1.
  pose proof (tracked_count m2 event H2) as T2.
  rewrite Hc in T1.
  destruct (tracked m1 event), (tracked m2 event); try done.
  - symmetry. apply T2, T1. done.
  - apply T1, T2. done.
Qed.

(** C5: after any sequence of calls a name is tracked exactly while its
    registration count exceeds zero; [RegisterEvent] adds one to the count
    and [RemoveEvent] takes one away; registering twice and removing once
    leaves the name tracked; a second removal brings the count, and with it
    the tracking, back to what it was before the four calls, so a name that
    was not tracked (as on a fresh client) is untracked again. *)
Theorem tracking_is_reference_counted (cs : list Call) (x : string) :
  let m := calls cs zeroClient in
  let twice_once := RemoveEvent x (RegisterEvent x (RegisterEvent x m)) in
  (tracked m x = true ↔ 0 < count m x)
  ∧ count (RegisterEvent x m) x = S (count m x)
  ∧ count (RemoveEvent x m) x = pred (count m x)
  ∧ tracked twice_once x = true
  ∧ 0 < count twice_once x
  ∧ count (RemoveEvent x twice_once) x = count m x
  ∧ tracked (RemoveEvent x twice_once) x = tracked m x
  ∧ tracked (RemoveEvent x (RemoveEvent x
               (RegisterEvent x (RegisterEvent x zeroClient)))) x = false.
Proof.
  intros m twice_once.
  assert (counts_positive m) as Hm.
  { apply counts_positive_calls, counts_positive_zero. }
  assert (counts_positive twice_once) as H3.
  { apply (counts_positive_calls [Register x; Register x; Remove x] m Hm). }
  assert (counts_positive (RemoveEvent x twice_once)) as H4.
  { apply (counts_positive_call (Remove x) _ H3). }
  assert (count twice_once x = S (count m x)) as Hc3.
  { unfold twice_once. by rewrite count_RemoveEvent, !count_RegisterEvent. }
  assert (count (RemoveEvent x twice_once) x = count m x) as Hc4.
  { by rewrite count_RemoveEvent, Hc3. }
  split; [by apply tracked_count|].
  split; [apply count_RegisterEvent|].
  split; [apply count_RemoveEvent|].
  split; [apply tracked_count; [done|lia]|].
  split; [lia|].
  split; [done|].
  split; [by apply tracked_same_count|].
  rewrite (tracked_same_count _ zeroClient x).
  - unfold tracked, zeroClient; simpl. rewrite lookup_empty.
    apply bool_decide_eq_false_2, is_Some_None.
  - apply (counts_positive_calls
             [Register x; Register x; Remove x; Remove x] zeroClient).
    apply counts_positive_zero.
  - apply counts_positive_zero.
  - by rewrite !count_RemoveEvent, !count_RegisterEvent.
Qed.

End websocket_facts.

(** ** The dispatcher *)

Section DispatcherFacts.
Variable Key : EvtKind → string.
Context {Value : Type}.
Implicit Types (d : Dispatch Value) (box : Box Value) (evtName : string).

Lemma switch_case_Some C name k : switch_case C name = Some k → name = C k.
Proof.
  unfold switch_case. intros H. apply find_some in H as [_ H].
  by apply bool_decide_eq_true in H.
Qed.

(** *** The callback loop *)

Lemma callbackLoop_typed k box fns d :
  box_type box = k →
  callbackLoop k box (Callback k <$> fns) d
  = Done tt (mkDispatch (listeners d) (listenOnceOnly d) (shutdown_closed d) (sent d)
               (goroutines d ++ ((λ fn, CallbackTask k fn box) <$> fns)) (stdout d)).
Proof.
  intros Hbox. revert d. induction fns as [|fn fns IH]; intros d; simpl.
  - unfold ret. rewrite app_nil_r. by destruct d.
  - unfold bind, assertBox, go, ret, modify.
    rewrite !decide_True by done. simpl.
    rewrite IH. simpl. by rewrite <-app_assoc.
Qed.


Lemma callbackLoop_registry k box ls d :
  let d' := state_of (callbackLoop k box ls d) in
  listeners d' = listeners d ∧ listenOnceOnly d' = listenOnceOnly d
  ∧ sent d' = sent d ∧ shutdown_closed d' = shutdown_closed d.
Proof.
  revert d. induction ls as [|l ls IH]; intros d; simpl; [done|].
  unfold bind, assertCallback, assertBox, go, ret, raise, modify.
  destruct l as [k' fn| |v]; simpl; try done.
  destruct (decide (k' = k)); simpl; [|done].
  destruct (decide (box_type box = k)); simpl; [|done].
  match goal with |- context [callbackLoop k box ls ?d1] => apply (IH d1) end.
Qed.

(** *** The removal loop *)

Lemma removeAt_goroutines evtName index d :
  let d' := state_of (removeAt evtName index d) in
  goroutines d' = goroutines d ∧ sent d' = sent d.
Proof.
  unfold removeAt, bind, gets, raise, modify. simpl.
  destruct (last _); simpl; [|done].
  by destruct (decide _).
Qed.

Lemma removeLoop_goroutines evtName indices d :
  let d' := state_of (removeLoop evtName indices d) in
  goroutines d' = goroutines d ∧ sent d' = sent d.
Proof.
  revert d. induction indices as [|index rest IH]; intros d; simpl; [done|].
  unfold bind. pose proof (removeAt_goroutines evtName index d) as Hat.
  destruct (removeAt evtName index d) as [[] d1|p d1]; simpl in *; [|done].
  destruct (IH d1) as [-> ->]. done.
Qed.

(** Two fire-once listeners in the last two slots: the first round moves
    the second listener into slot 0 and cuts the slice to length 1, so the
    second round indexes past the end. *)
Lemma removeLoop_two evtName a b d :
  listeners_of d evtName = [a; b] →
  removeLoop evtName [0; 1] d
  = Panicked (IndexOutOfRange 1 1) (set_listeners <[evtName := [b]]> d).
Proof.
  intros Hls. simpl. unfold bind, removeAt at 1, bind, gets. rewrite Hls. simpl.
  unfold modify, removeAt, bind, gets, listeners_of. simpl.
  rewrite lookup_insert_eq. simpl. done.
Qed.

(** [AddHandlerOnce] appends the listener and records its position. *)
Lemma AddHandlerOnce_registry evtName listener d :
  ∃ d', AddHandlerOnce evtName listener d = Done tt d'
        ∧ listeners_of d' evtName = listeners_of d evtName ++ [listener]
        ∧ listenOnceOnly_of d' evtName
          = listenOnceOnly_of d evtName ++ [length (listeners_of d evtName)].
Proof.
  eexists. split; [done|]. split.
  - unfold listeners_of at 1. simpl. by rewrite lookup_insert_eq.
  - unfold listenOnceOnly_of at 1. simpl. by rewrite lookup_insert_eq.
Qed.

(** A round that returns leaves the slice one shorter. *)
Lemma removeAt_length evtName index d d1 :
  removeAt evtName index d = Done tt d1 →
  length (listeners_of d1 evtName) = length (listeners_of d evtName) - 1
  ∧ listenOnceOnly d1 = listenOnceOnly d.
Proof.
  unfold removeAt, bind, gets, raise, modify.
  destruct (last (listeners_of d evtName)) as [y|]; [|done].
  destruct (decide (index < length (listeners_of d evtName))) as [Hlt|]; [|done].
  intros [= <-]. split; [|done].
  unfold listeners_of at 1. simpl. rewrite lookup_insert_eq. simpl.
  rewrite length_take, !length_insert. lia.
Qed.

(** Every round before a stored position shortens the slice by one, so a
    position that is not at least as far from the end as the number of
    rounds before it is out of range when its round comes. *)
Lemma removeLoop_overrun evtName (indices : list nat) (j : nat) d :
  (length (listeners_of d evtName) ≤ j + length indices)%nat →
  panicked (removeLoop evtName (indices ++ [j]) d) = true.
Proof.
  revert d. induction indices as [|i indices IH]; intros d Hlen; simpl in *.
  - unfold bind, removeAt, bind, gets, raise.
    destruct (last (listeners_of d evtName)); [|done].
    by rewrite decide_False by lia.
  - unfold bind at 1.
    destruct (removeAt evtName i d) as [[] d1|p d1] eqn:Hat; [|done].
    apply removeAt_length in Hat as [Hat _]. apply IH. lia.
Qed.

(** Neither [triggerChan] nor [triggerCallbacks] sends on [allChan]. *)
Lemma triggerChan_allChan evtName box d :
  sent_on allChan (state_of (triggerChan Key evtName box d)) = sent_on allChan d.
Proof.
  unfold triggerChan. destruct (switch_case Key evtName) as [k|]; [|done].
  unfold bind, assertBox, send, modify, ret, raise.
  destruct (decide (box_type box = k)); simpl; [|done].
  unfold sent_on. simpl. rewrite filter_app, filter_cons_False, filter_nil by done.
  by rewrite app_nil_r.
Qed.

Lemma triggerCallbacks_sent evtName box d :
  sent (state_of (triggerCallbacks Key evtName box d)) = sent d.
Proof.
  unfold triggerCallbacks.
  apply (bind_preserves sent); [|intros [] d1; apply (bind_preserves sent)].
  - intros d1. destruct (switch_case Key evtName) as [k|]; [|done].
    unfold bind, gets. apply callbackLoop_registry.
  - intros d2. unfold bind, gets. apply removeLoop_goroutines.
  - done.
Qed.

(** One round whose position is in range removes exactly the listener at
    that position; the others stay, though not in their old order. *)
Lemma swap_remove_perm (ls : list Listener) index x y :
  ls !! index = Some x → last ls = Some y →
  take (length ls - 1) (<[length ls - 1 := Nil]> (<[index := y]> ls))
  ≡ₚ delete index ls.
Proof.
  intros Hx [ls0 ->]%last_Some.
  rewrite length_app; simpl. replace (length ls0 + 1 - 1) with (length ls0) by lia.
  rewrite take_insert_ge by lia.
  destruct (decide (index < length ls0)) as [Hlt|Hge].
  - rewrite insert_app_l, take_app_length' by (by rewrite ?length_insert).
    rewrite lookup_app_l in Hx by done.
    apply list_elem_of_split_length in Hx as (l1 & l2 & -> & ->).
    rewrite <-(Nat.add_0_r (length l1)) at 1.
    rewrite insert_app_r. simpl.
    rewrite <-app_assoc. simpl. rewrite delete_middle.
    rewrite <-Permutation_middle, (assoc (++) l1 l2 [y]).
    apply Permutation_cons_append.
  - assert (index = length ls0) as ->.
    { apply lookup_lt_Some in Hx. rewrite length_app in Hx. simpl in Hx. lia. }
    rewrite list_lookup_middle in Hx by done. injection Hx as ->.
    rewrite list_insert_id by (by apply list_lookup_middle).
    by rewrite take_app_length, delete_middle, app_nil_r.
Qed.

Lemma removeLoop_single evtName index x d :
  listeners_of d evtName !! index = Some x →
  ∃ ls',
    removeLoop evtName [index] d = Done tt (set_listeners <[evtName := ls']> d)
    ∧ ls' ≡ₚ delete index (listeners_of d evtName).
Proof.
  intros Hx. simpl. unfold bind at 1, removeAt, bind at 1, gets.
  destruct (last (listeners_of d evtName)) as [y|] eqn:Hlast.
  - rewrite decide_True by (by eapply lookup_lt_Some).
    unfold modify, ret. eexists. split; [done|]. by eapply swap_remove_perm.
  - apply last_None in Hlast. by rewrite Hlast in Hx.
Qed.

End DispatcherFacts.

Section DispatcherProperties.
Variable Key : EvtKind → string.
Context {Value : Type}.
Implicit Types (d : Dispatch Value) (box : Box Value) (evtName : string).

(** C1 (the code departs from the specification): two handlers registered
    one after the other with [AddHandlerOnce] for one event name, then one
    delivery of that name. Whatever the dispatcher held before, whatever the
    name, the handlers and the event are, [triggerCallbacks] panics: if
    every type assertion passes, the removal loop reaches the position of
    the second handler, the last slot at registration, after at least one
    earlier round has cut the slice, and indexes past its end. *)
Theorem two_once_handlers_panic evtName (a b : Listener) box d :
  panicked ((AddHandlerOnce evtName a >> AddHandlerOnce evtName b >>
             triggerCallbacks Key evtName box) d) = true.
Proof.
  set (ls := listeners_of d evtName). set (idx := listenOnceOnly_of d evtName).
  destruct (AddHandlerOnce_registry evtName a d) as (d1 & Hd1 & Hls1 & Honce1).
  destruct (AddHandlerOnce_registry evtName b d1) as (d2 & Hd2 & Hls & Honce).
  unfold bind at 1. rewrite Hd1. unfold bind at 1. rewrite Hd2.
  rewrite Hls1 in Hls, Honce. rewrite Honce1 in Honce. fold ls idx in Hls, Honce.
  unfold triggerCallbacks.
  assert (∀ (m : M (Dispatch Value) unit),
            (let d' := state_of (m d2) in
             listeners d' = listeners d2 ∧ listenOnceOnly d' = listenOnceOnly d2) →
            panicked ((m >> (let* indices := gets (λ d, listenOnceOnly_of d evtName) in
                             removeLoop evtName indices) >>
                       modify (set_listenOnceOnly (delete evtName))) d2) = true) as Hrest.
  { intros m Hm. unfold bind at 1. destruct (m d2) as [[] d3|p d3]; [|done].
    simpl in Hm. destruct Hm as [Hl Ho].
    unfold bind at 1 2, gets.
    replace (listenOnceOnly_of d3 evtName)
      with ((idx ++ [length ls]) ++ [length (ls ++ [a])])
      by (unfold listenOnceOnly_of in *; by rewrite Ho).
    pose proof (removeLoop_overrun evtName (idx ++ [length ls]) (length (ls ++ [a])) d3)
      as Hover.
    destruct (removeLoop _ _ d3); [|done].
    discriminate Hover.
    replace (listeners_of d3 evtName) with ((ls ++ [a]) ++ [b])
      by (unfold listeners_of in *; by rewrite Hl).
    rewrite !length_app. simpl. lia. }
  apply Hrest.
  destruct (switch_case Key evtName) as [k|].
  - unfold bind, gets.
    destruct (callbackLoop_registry k box (listeners_of d2 (Key k)) d2) as (? & ? & _).
    done.
  - by unfold printf, modify.
Qed.

(** The same input evaluated: both handlers are started, then the removal
    panics with index 1 on length 1, leaving the first handler removed, the
    second one registered and the stored positions in place. *)
Example two_once_handlers_READY :
  let o := (AddHandlerOnce "READY" (Callback Ready 1) >>
            AddHandlerOnce "READY" (Callback Ready 2) >>
            triggerCallbacks gatewayName "READY" (mkBox Ready 0)) NewDispatch in
  o = Panicked (IndexOutOfRange 1 1) (state_of o)
  ∧ listeners (state_of o) !! "READY" = Some [Callback Ready 2]
  ∧ listenOnceOnly (state_of o) !! "READY" = Some [0; 1]
  ∧ goroutines (state_of o)
    = [CallbackTask Ready 1 (mkBox Ready 0); CallbackTask Ready 2 (mkBox Ready 0)].
Proof. by vm_compute. Qed.

(** A single fire-once handler next to ordinary ones is started, removed,
    and the ordinary handlers stay. *)
Example one_once_handler_READY :
  let o := (AddHandler "READY" (Callback Ready 1) >>
            AddHandlerOnce "READY" (Callback Ready 2) >>
            AddHandler "READY" (Callback Ready 3) >>
            triggerCallbacks gatewayName "READY" (mkBox Ready 0) >>
            triggerCallbacks gatewayName "READY" (mkBox Ready 0)) NewDispatch in
  panicked o = false
  ∧ listeners (state_of o) !! "READY" = Some [Callback Ready 1; Callback Ready 3]
  ∧ listenOnceOnly (state_of o) !! "READY" = None
  ∧ goroutines (state_of o)
    = (λ fn, CallbackTask Ready fn (mkBox Ready 0)) <$> [1; 2; 3; 1; 3].
Proof. by vm_compute. Qed.

(** The type-specific half of the sentence does hold: an event whose name has
    a case is sent on the channel of its type. *)
Lemma triggerChan_sends_on_evtChan evtName k box d :
  switch_case Key evtName = Some k →
  box_type box = k →
  sent (state_of (triggerChan Key evtName box d)) = sent d ++ [(evtChan k, box)].
Proof.
  intros Hk Hbox. unfold triggerChan. rewrite Hk.
  unfold bind, assertBox. by rewrite decide_True.
Qed.

(** A READY event through a new dispatcher: one send, on [readyChan]. *)
Example triggerChan_READY :
  let d := state_of (triggerChan gatewayName "READY" (mkBox Ready 0) NewDispatch) in
  sent d = [(evtChan Ready, mkBox Ready 0)] ∧ sent_on allChan d = [].
Proof. by vm_compute. Qed.


End DispatcherProperties.



(** A listener of another type between two of the right type: the first is
    started, the other two are not. *)
Example wrong_type_listener_in_the_middle :
  let d := state_of ((AddHandler "READY" (Callback Ready 1) >>
                      AddHandler "READY" (Callback Resumed 7) >>
                      AddHandler "READY" (Callback Ready 2))
                       (NewDispatch (Value := nat))) in
  let o := triggerCallbacks gatewayName "READY" (mkBox Ready 0) d in
  panicked o = true
  ∧ goroutines (state_of o) = [CallbackTask Ready 1 (mkBox Ready 0)].
Proof. by vm_compute. Qed.

(** ** The client *)

Section LifecycleProperties.
Context {Value SocketCommand Data : Type}.
Implicit Types (c : Client Value SocketCommand Data).

(** C2 (as amended): on a client whose dispatcher has not been stopped,
    [Disconnect] closes the shutdown channel, calls the websocket's
    [Disconnect] and returns its error. It cannot be repeated: the next
    [Disconnect] panics in [stop], closing a closed channel, before the
    websocket is reached. *)
Theorem Disconnect_only_once (wsDisconnectResult : list (WsCall SocketCommand Data) → option string) c :
  shutdown_closed (evtDispatch c) = false →
  ∃ c1 c2,
    Disconnect wsDisconnectResult c = Done (wsDisconnectResult (ws c)) c1
    ∧ shutdown_closed (evtDispatch c1) = true
    ∧ ws c1 = ws c ++ [WsDisconnect]
    ∧ Disconnect wsDisconnectResult c1 = Panicked CloseOfClosedChannel c2
    ∧ ws c2 = ws c1 ∧ evtDispatch c2 = evtDispatch c1.
Proof.
  intros Hopen.
  unfold Disconnect, bind, logLine, logInfo, logErr, logLine, modify, onDispatch, stop,
    bind, gets, ws_Disconnect, bind, gets, wsCall, modify, ret, raise. simpl.
  rewrite Hopen. simpl.
  destruct (wsDisconnectResult (ws c)) as [e|] eqn:He; simpl; eauto 10.
Qed.

(** C8 (as amended): when the websocket's [Connect] returns an error,
    [Client.Connect] returns that error to its caller at once. By then the
    dispatcher's drain goroutine has been started ([start] runs before the
    connection attempt); the event-handler goroutine has not. *)
Theorem Connect_error_surfaces (wsConnectResult : list (WsCall SocketCommand Data) → option string) c e :
  wsConnectResult (ws c) = Some e →
  ∃ c',
    Connect wsConnectResult c = Done (Some e) c'
    ∧ goroutines (evtDispatch c') = goroutines (evtDispatch c) ++ [DrainTask]
    ∧ tasks c' = tasks c
    ∧ started c' = goroutines (evtDispatch c) ++ [DrainTask] ++ tasks c.
Proof.
  intros He.
  unfold Connect, bind, logInfo, logErr, logLine, modify, onDispatch, start,
    alwaysListenToChans, go, modify, ws_Connect, bind, gets, wsCall, modify, ret.
  simpl. rewrite He. simpl. eexists. split; [done|]. simpl.
  unfold started. simpl. by rewrite <-app_assoc.
Qed.

(** When the connection succeeds both goroutines are started. *)
Lemma Connect_success (wsConnectResult : list (WsCall SocketCommand Data) → option string) c :
  wsConnectResult (ws c) = None →
  ∃ c',
    Connect wsConnectResult c = Done None c'
    ∧ goroutines (evtDispatch c') = goroutines (evtDispatch c) ++ [DrainTask]
    ∧ tasks c' = tasks c ++ [EventHandlerTask].
Proof.
  intros He.
  unfold Connect, bind, logInfo, logErr, logLine, modify, onDispatch, start,
    alwaysListenToChans, go, modify, ws_Connect, bind, gets, wsCall, goClient,
    modify, ret.
  simpl. rewrite He. simpl. eauto.
Qed.

Context `{EqDecision SocketCommand}.
Variables CommandUpdateStatus CommandUpdateVoiceState
          CommandRequestGuildMembers : SocketCommand.

(** C6: [Emit] hands the command to the websocket's [Emit] exactly when it
    is one of the three whitelisted commands; any other command leaves the
    client as it was, and nothing reaches the websocket. *)
Theorem Emit_forwards_iff_whitelisted (command : SocketCommand) (data : Data) c :
  let whitelisted := command = CommandUpdateStatus
                     ∨ command = CommandUpdateVoiceState
                     ∨ command = CommandRequestGuildMembers in
  let o := Emit CommandUpdateStatus CommandUpdateVoiceState
                CommandRequestGuildMembers command data c in
  (whitelisted ↔ ws (state_of o) = ws c ++ [WsEmit command data])
  ∧ (¬ whitelisted ↔ o = Done tt c)
  ∧ panicked o = false.
Proof.
  intros whitelisted o. subst o. unfold Emit.
  destruct (decide whitelisted) as [Hw|Hw].
  - assert (bool_decide (command = CommandUpdateStatus)
            || bool_decide (command = CommandUpdateVoiceState)
            || bool_decide (command = CommandRequestGuildMembers) = true) as ->.
    { rewrite !orb_true_iff, !bool_decide_eq_true. unfold whitelisted in Hw. tauto. }
    unfold wsCall, modify; simpl. split; [done|]. split; [|done]. split; [done|].
    intros [= Hc]. apply (f_equal ws) in Hc. simpl in Hc.
    apply (f_equal length) in Hc. rewrite length_app in Hc. simpl in Hc. lia.
  - assert (bool_decide (command = CommandUpdateStatus)
            || bool_decide (command = CommandUpdateVoiceState)
            || bool_decide (command = CommandRequestGuildMembers) = false) as ->.
    { rewrite !orb_false_iff, !bool_decide_eq_false. unfold whitelisted in Hw. tauto. }
    unfold ret; simpl. split; [|done]. split; [done|].
    intros Hc. apply (f_equal length) in Hc. rewrite length_app in Hc. simpl in Hc. lia.
Qed.

End LifecycleProperties.

(** C2 (the sentence as stated fails): the second [Disconnect] on a new
    client panics; so does the second [stop]. *)
Lemma second_Disconnect_panics :
  let c1 := state_of (Disconnect wsSucceeds (newClient (Value := nat) (SocketCommand := nat) (Data := nat))) in
  Disconnect wsSucceeds newClient = Done None c1
  ∧ (∃ c2, Disconnect wsSucceeds c1 = Panicked CloseOfClosedChannel c2)
  ∧ (stop >> stop) (NewDispatch (Value := nat))
    = Panicked CloseOfClosedChannel (set_shutdown_closed true NewDispatch).
Proof. vm_compute. eauto. Qed.

Lemma Disconnect_only_once_witness :
  ∃ c1 c2 : Client nat nat nat,
    Disconnect wsSucceeds newClient = Done None c1
    ∧ shutdown_closed (evtDispatch c1) = true
    ∧ ws c1 = [WsDisconnect]
    ∧ Disconnect wsSucceeds c1 = Panicked CloseOfClosedChannel c2
    ∧ ws c2 = ws c1 ∧ evtDispatch c2 = evtDispatch c1.
Proof. apply (Disconnect_only_once wsSucceeds newClient). reflexivity. Defined.

(** C8 (the sentence as stated fails): a failing connection attempt on a new
    client returns its error with the drain goroutine already started. *)
Lemma Connect_error_after_drain_started :
  let c := state_of (Connect (wsFails "invalid endpoint")
                       (newClient (Value := nat) (SocketCommand := nat) (Data := nat))) in
  Connect (wsFails "invalid endpoint") newClient = Done (Some "invalid endpoint") c
  ∧ started c = [DrainTask]
  ∧ started c ≠ [].
Proof. by vm_compute. Qed.

Lemma Connect_error_surfaces_witness :
  ∃ c' : Client nat nat nat,
    Connect (wsFails "invalid endpoint") newClient = Done (Some "invalid endpoint") c'
    ∧ goroutines (evtDispatch c') = [DrainTask]
    ∧ tasks c' = []
    ∧ started c' = [DrainTask].
Proof.
  apply (Connect_error_surfaces (wsFails "invalid endpoint") newClient "invalid endpoint").
  reflexivity.
Defined.

(** ** The event handler *)

Section EventHandlerProperties.
Variable Key : EvtKind → string.
Variable Event : EvtKind → string.
Context {Value SocketCommand Data : Type}.
Variable json_Unmarshal : Target → string → option Value.
Implicit Types (c : Client Value SocketCommand Data) (received : list Recv).



(** C4 (the code departs from the specification): nothing is ever sent on
    [allChan]. [triggerChan] sends an event on the channel of its type only,
    [triggerCallbacks] sends nothing, and so the event handler, whatever it
    receives and however decoding behaves, leaves [allChan] without a single
    event. *)
Theorem nothing_is_sent_on_allChan unmarshal :
  (∀ evtName (box : Box Value) d,
     sent_on allChan (state_of (triggerChan Key evtName box d)) = sent_on allChan d)
  ∧ (∀ received c,
       sent_on allChan (evtDispatch (state_of (eventHandler Key Event unmarshal received c)))
       = sent_on allChan (evtDispatch c)).
Proof.
  split; [apply triggerChan_allChan|].
  set (f := λ c : Client Value SocketCommand Data, sent_on allChan (evtDispatch c)).
  assert (∀ A (m : M (Dispatch Value) A) c,
            (∀ d, sent_on allChan (state_of (m d)) = sent_on allChan d) →
            f (state_of (onDispatch m c)) = f c) as Hon.
  { intros A m c Hm. unfold onDispatch, f. specialize (Hm (evtDispatch c)).
    by destruct (m (evtDispatch c)). }
  induction received as [|r received IH]; intros c; [done|].
  cbn [eventHandler]. apply (bind_preserves f); [|by intros []].
  intros c1. destruct r as [evtName data|]; simpl; [|done].
  destruct (switch_case Event evtName) as [k|]; [|done].
  apply (bind_preserves f).
  - intros c2. by destruct (unmarshal (target k) data).
  - intros v c2. apply (bind_preserves f).
    + intros c3. apply Hon, triggerChan_allChan.
    + intros [] c3. apply Hon. intros d. unfold sent_on.
      by rewrite triggerCallbacks_sent.
Qed.



End EventHandlerProperties.


(** With [Unmarshal] as the helper, the handler stops at the malformed
    frame. *)
Example malformed_frame_stops_the_handler :
  let run := eventHandler gatewayName gatewayName (Unmarshal decodeNonEmpty) in
  let c : Client string nat nat := newClient in
  run [Frame "READY" ""; Frame "READY" "{}"] c = Panicked DecodeError c
  ∧ sent (evtDispatch (state_of (run [Frame "READY" ""; Frame "READY" "{}"] c))) = []
  ∧ panicked (run [Frame "READY" "{}"] c) = false
  ∧ sent (evtDispatch (state_of (run [Frame "READY" "{}"] c)))
    = [(evtChan Ready, mkBox Ready "{}")].
Proof. by vm_compute. Qed.

(** Were the decode helper to return its error instead of panicking, the
    handler would discard it and dispatch the empty box: the malformed frame
    is still not dropped. *)
Example malformed_frame_dispatched_when_decoding_returns :
  let returning := λ t data, Ok (default "" (decodeNonEmpty t data)) in
  let c : Client string nat nat := newClient in
  sent (evtDispatch (state_of
          (eventHandler gatewayName gatewayName returning [Frame "READY" ""] c)))
  = [(evtChan Ready, mkBox Ready "")].
Proof. by vm_compute. Qed.

(** Through the client's own entry points: [Once] with two handlers, then
    one READY frame. Both handlers are started and the handler goroutine
    panics in the removal loop. *)
Example Once_two_handlers_then_READY :
  let c : Client string nat nat :=
    state_of (Once "READY" [Callback Ready 1; Callback Ready 2] newClient) in
  let o := eventHandler gatewayName gatewayName (Unmarshal decodeNonEmpty)
             [Frame "READY" "{}"] c in
  o = Panicked (IndexOutOfRange 1 1) (state_of o)
  ∧ goroutines (evtDispatch (state_of o))
    = [CallbackTask Ready 1 (mkBox Ready "{}"); CallbackTask Ready 2 (mkBox Ready "{}")]
  ∧ listeners (evtDispatch (state_of o)) !! "READY" = Some [Callback Ready 2].
Proof. by vm_compute. Qed.


(** ** The tlru cache list *)

Module tlru_facts.
Import tlru.

Section SetFacts.
Context {Content : Type} `{EqDecision Content} `{Interface Content}.
Implicit Types (s : Mem (Content := Content)) (m : gmap Snowflake ptr).

Lemma update_outcome p now s :
  (heap s !! p = None ∧ update p now s = Panicked NilDereference s)
  ∨ (∃ it, heap s !! p = Some it
           ∧ update p now s
             = Done tt (set_heap <[p := mkCacheItem (item it) (death it) now]> s)).
Proof.
  unfold update, bind, deref, bind, gets, modify, ret, raise. simpl.
  destruct (heap s !! p) as [it|]; eauto.
Qed.

Lemma deref_allocated p it s : heap s !! p = Some it → deref (Some p) s = Done it s.
Proof. intros Hp. unfold deref, bind, gets. simpl. by rewrite Hp. Qed.

(** The loop of [removeLRU] never panics on allocated items, changes
    nothing, and ends on an entry of the map. *)
Lemma lruLoop_entry exception entries lru lruKey s :
  items_allocated s →
  (∀ key p, (key, p) ∈ entries → items (cache s) !! key = Some p) →
  items (cache s) !! lruKey = Some lru →
  ∃ found foundKey,
    lruLoop exception entries (Some lru) lruKey s = Done (Some found, foundKey) s
    ∧ items (cache s) !! foundKey = Some found.
Proof.
  intros Halloc. revert lru lruKey.
  induction entries as [|[key p] rest IH]; intros lru lruKey Hentries Hlru; simpl.
  - eauto.
  - assert (items (cache s) !! key = Some p) as Hkey by (apply Hentries; left).
    assert (∀ key p, (key, p) ∈ rest → items (cache s) !! key = Some p) as Hrest.
    { intros ? ? ?. apply Hentries. by right. }
    case_bool_decide; [|by apply IH].
    destruct (Halloc _ _ Hkey) as [i Hi]. destruct (Halloc _ _ Hlru) as [l Hl].
    unfold bind at 1. rewrite (deref_allocated p i) by done.
    unfold bind at 1. rewrite (deref_allocated lru l) by done.
    case_bool_decide; by apply IH.
Qed.

(** When the map is not empty, [removeLRU] deletes exactly one entry. *)
Lemma removeLRU_deletes_one first loop exception s :
  items_allocated s →
  items (cache s) ≠ ∅ →
  ∃ key, is_Some (items (cache s) !! key)
         ∧ removeLRU first loop exception s = Done tt (set_items (delete key) s).
Proof.
  intros Halloc Hne. unfold removeLRU, bind at 1, First, bind at 1, gets.
  destruct (order_of first (items (cache s))) as [|[key p] rest] eqn:Hfirst.
  { exfalso. apply Hne, map_to_list_empty_iff.
    pose proof (order_perm first (items (cache s))) as Hperm.
    rewrite Hfirst in Hperm. by apply Permutation_nil in Hperm. }
  assert (items (cache s) !! key = Some p) as Hkey.
  { apply elem_of_map_to_list. rewrite <-(order_perm first), Hfirst. left. }
  unfold ret, bind at 1, gets, bind at 1. simpl.
  destruct (lruLoop_entry exception (order_of loop (items (cache s))) p key s)
    as (found & foundKey & -> & Hfound); [done| |done|].
  { intros ? ? Hin. apply elem_of_map_to_list. by rewrite <-(order_perm loop). }
  unfold modify. simpl. eauto.
Qed.

Lemma items_allocated_set_heap p it s :
  items_allocated s → items_allocated (set_heap <[p := it]> s).
Proof.
  intros Halloc key q Hq. simpl in *. destruct (decide (p = q)) as [->|Hne].
  - rewrite lookup_insert_eq. eauto.
  - rewrite lookup_insert_ne by done. by eapply Halloc.
Qed.

(** [Set] keeps the invariant, whether it returns or panics. *)
Lemma Set_within_limit n first loop now id newItem s :
  (0 < n)%N →
  within_limit n s → within_limit n (state_of (Set_ first loop now id newItem s)).
Proof.
  intros Hn (Hlimit & Hsize & Halloc). unfold Set_, bind at 1.
  destruct (update_outcome newItem now s) as [[_ ->]|(it & Hit & ->)]; [done|].
  set (s1 := set_heap _ s).
  assert (items_allocated s1) as Halloc1 by (by apply items_allocated_set_heap).
  assert (is_Some (heap s1 !! newItem)) as [n1 Hn1].
  { unfold s1. simpl. rewrite lookup_insert_eq. eauto. }
  unfold bind at 1, gets. simpl.
  destruct (items (cache s) !! id) as [old|] eqn:Hid.
  - destruct (Halloc1 id old Hid) as [o Ho].
    unfold bind at 1. rewrite (deref_allocated old o) by done.
    unfold bind at 1. rewrite (deref_allocated newItem n1) by done.
    destruct (uncomparable _ _); [done|].
    destruct (_ || _); simpl; [|done].
    split; [done|]. split; [done|]. by apply items_allocated_set_heap.
  - unfold bind at 1, modify. set (s2 := set_items _ s1).
    assert (items_allocated s2) as Halloc2.
    { intros key q. unfold s2. simpl. destruct (decide (id = key)) as [->|Hne].
      - rewrite lookup_insert_eq. intros [= <-]. rewrite lookup_insert_eq. eauto.
      - rewrite lookup_insert_ne by done. apply Halloc1. }
    assert (size (items (cache s2)) = S (size (items (cache s)))) as Hsize2.
    { unfold s2. simpl. by apply map_size_insert_None. }
    unfold bind at 1, gets.
    destruct (_ || _) eqn:Hguard; simpl.
    + apply orb_true_iff in Hguard as [Hz|Hle].
      * apply bool_decide_eq_true in Hz. simpl in Hz. lia.
      * apply bool_decide_eq_true in Hle. simpl in Hle.
        split; [done|]. split; [|done]. unfold size_of in *. simpl in *. lia.
    + destruct (removeLRU_deletes_one first loop id s2) as (key & Hkey & ->); [done| |].
      { intros Hempty. rewrite Hempty, map_size_empty in Hsize2. lia. }
      simpl. split; [done|]. split.
      * unfold size_of in *. simpl in *.
        rewrite map_size_delete_Some by done.
        rewrite Hsize2. simpl. lia.
      * intros k q. simpl. destruct (decide (key = k)) as [->|Hne].
        -- by rewrite lookup_delete_eq.
        -- rewrite lookup_delete_ne by done. apply Halloc2.
Qed.

(** The size bound of C9: a list built by [NewCacheList] with a non-zero
    limit never holds more items than the limit, after any number of [Set]
    calls, whatever the clock, the items, and the iteration orders. *)
Lemma size_never_exceeds_limit (h : gmap ptr (@CacheItem Content)) (n : N) (lifetime : Z)
    (cs : list SetCall) :
  (0 < n)%N →
  (size_of (cache (runSets cs (mkMem h (NewCacheList n lifetime)))) ≤ n)%N.
Proof.
  intros Hn.
  cut (within_limit n (runSets cs (mkMem h (NewCacheList n lifetime)))).
  { by intros (_ & ? & _). }
  assert (within_limit n (mkMem h (NewCacheList n lifetime))) as Hinit.
  { split; [done|]. split.
    - unfold size_of. simpl. rewrite map_size_empty. lia.
    - intros key p. simpl. by rewrite lookup_empty. }
  revert Hinit. generalize (mkMem h (NewCacheList n lifetime)).
  induction cs as [|c cs IH]; intros s Hs; [done|].
  simpl. apply IH. by apply Set_within_limit.
Qed.

Lemma lastUsed_of_entry s key p it :
  items (cache s) !! key = Some p → heap s !! p = Some it →
  lastUsed_of s key = Some (lastUsed it).
Proof. intros Hk Hp. unfold lastUsed_of. rewrite Hk. simpl. by rewrite Hp. Qed.

(** The loop ends on an entry used no later than the one it started from
    and no later than any visited entry other than the exception; it ends on
    the exception only if it started there. *)
Lemma lruLoop_least exception entries lru lruKey t s :
  items_allocated s →
  (∀ key p, (key, p) ∈ entries → items (cache s) !! key = Some p) →
  items (cache s) !! lruKey = Some lru →
  lastUsed_of s lruKey = Some t →
  ∃ found foundKey tf,
    lruLoop exception entries (Some lru) lruKey s = Done (Some found, foundKey) s
    ∧ lastUsed_of s foundKey = Some tf
    ∧ (tf ≤ t)%Z
    ∧ (foundKey = lruKey ∨ foundKey ≠ exception)
    ∧ (∀ key p tk, (key, p) ∈ entries → key ≠ exception →
                   lastUsed_of s key = Some tk → (tf ≤ tk)%Z).
Proof.
  intros Halloc. revert lru lruKey t.
  induction entries as [|[key p] rest IH]; intros lru lruKey t Hentries Hlru Ht; simpl.
  - exists lru, lruKey, t. repeat split; [done|lia|by left|].
    intros ? ? ? Hin. by apply elem_of_nil in Hin.
  - assert (items (cache s) !! key = Some p) as Hkey by (apply Hentries; left).
    assert (∀ key p, (key, p) ∈ rest → items (cache s) !! key = Some p) as Hrest.
    { intros ? ? ?. apply Hentries. by right. }
    case_bool_decide as Hexc.
    + destruct (Halloc _ _ Hkey) as [i Hi]. destruct (Halloc _ _ Hlru) as [l Hl].
      unfold bind at 1. rewrite (deref_allocated p i) by done.
      unfold bind at 1. rewrite (deref_allocated lru l) by done.
      rewrite (lastUsed_of_entry s lruKey lru l) in Ht by done.
      injection Ht as <-.
      pose proof (lastUsed_of_entry s key p i Hkey Hi) as Hti.
      case_bool_decide as Hlt.
      * destruct (IH p key (lastUsed i) Hrest Hkey Hti)
          as (found & foundKey & tf & -> & Htf & Hle & Hor & Hmin).
        exists found, foundKey, tf. repeat split; [done|lia| |].
        { right. by destruct Hor as [->|?]. }
        intros k q tk [[= -> ->]|Hin]%elem_of_cons Hk Htk.
        -- rewrite Hti in Htk. injection Htk as <-. lia.
        -- by eapply Hmin.
      * destruct (IH lru lruKey (lastUsed l) Hrest Hlru
                    (lastUsed_of_entry s lruKey lru l Hlru Hl))
          as (found & foundKey & tf & -> & Htf & Hle & Hor & Hmin).
        exists found, foundKey, tf. repeat split; [done|lia|done|].
        intros k q tk [[= -> ->]|Hin]%elem_of_cons Hk Htk.
        -- rewrite Hti in Htk. injection Htk as <-. lia.
        -- by eapply Hmin.
    + destruct (IH lru lruKey t Hrest Hlru Ht)
        as (found & foundKey & tf & -> & Htf & Hle & Hor & Hmin).
      exists found, foundKey, tf. repeat split; [done..|].
      intros k q tk [[= -> ->]|Hin]%elem_of_cons Hk Htk.
      -- by destruct (Hk Hexc).
      -- by eapply Hmin.
Qed.

(** When some entry other than the exception was used strictly before the
    exception, [removeLRU] deletes an entry other than the exception that
    was used no later than any other entry but the exception: the least
    recently used one among the others. *)
Lemma removeLRU_evicts_least_recently_used first loop exception other te to s :
  items_allocated s →
  lastUsed_of s exception = Some te →
  other ≠ exception →
  lastUsed_of s other = Some to →
  (to < te)%Z →
  ∃ key tk,
    removeLRU first loop exception s = Done tt (set_items (delete key) s)
    ∧ key ≠ exception
    ∧ lastUsed_of s key = Some tk
    ∧ (∀ k t, k ≠ exception → lastUsed_of s k = Some t → (tk ≤ t)%Z).
Proof.
  intros Halloc Hte Hother Hto Hlt.
  assert (∀ k t, lastUsed_of s k = Some t → ∃ p, items (cache s) !! k = Some p) as Hdom.
  { intros k t. unfold lastUsed_of. destruct (items (cache s) !! k); [eauto|done]. }
  unfold removeLRU, bind at 1, First, bind at 1, gets.
  destruct (order_of first (items (cache s))) as [|[key0 p0] rest] eqn:Hfirst.
  { exfalso. destruct (Hdom _ _ Hte) as [p Hp].
    apply elem_of_map_to_list in Hp. rewrite <-(order_perm first), Hfirst in Hp.
    by apply elem_of_nil in Hp. }
  assert (items (cache s) !! key0 = Some p0) as Hkey0.
  { apply elem_of_map_to_list. rewrite <-(order_perm first), Hfirst. left. }
  destruct (Halloc _ _ Hkey0) as [i0 Hi0].
  unfold ret, bind at 1, gets, bind at 1. simpl.
  destruct (lruLoop_least exception (order_of loop (items (cache s))) p0 key0
              (lastUsed i0) s)
    as (found & foundKey & tf & -> & Htf & Hle & Hor & Hmin); [done| |done| |].
  { intros ? ? Hin. apply elem_of_map_to_list. by rewrite <-(order_perm loop). }
  { by eapply lastUsed_of_entry. }
  assert (∀ k t, k ≠ exception → lastUsed_of s k = Some t → (tf ≤ t)%Z) as Hall.
  { intros k t Hk Ht. destruct (Hdom _ _ Ht) as [p Hp].
    apply (Hmin k p t); [|done..].
    rewrite (order_perm loop). by apply elem_of_map_to_list. }
  unfold modify. simpl. exists foundKey, tf. repeat split; [|done..].
  intros ->. rewrite Hte in Htf. injection Htf as <-.
  specialize (Hall other to Hother Hto). lia.
Qed.

(** [Set] of a new key on a full list, when some stored item other than the
    new one was last used strictly before the clock reading of this call:
    the new entry stays and exactly one other entry goes, one that was used
    no later than any other entry but the new one. *)
Lemma Set_evicts_least_recently_used first loop now id newItem it other q oi s :
  items_allocated s →
  limit (cache s) ≠ 0%N →
  size_of (cache s) = limit (cache s) →
  items (cache s) !! id = None →
  heap s !! newItem = Some it →
  items (cache s) !! other = Some q →
  q ≠ newItem →
  heap s !! q = Some oi →
  (lastUsed oi < now)%Z →
  ∃ s2 key tk,
    s2 = set_items <[id := newItem]>
           (set_heap <[newItem := mkCacheItem (item it) (death it) now]> s)
    ∧ Set_ first loop now id newItem s = Done tt (set_items (delete key) s2)
    ∧ key ≠ id
    ∧ lastUsed_of s2 key = Some tk
    ∧ (∀ k t, k ≠ id → lastUsed_of s2 k = Some t → (tk ≤ t)%Z).
Proof.
  intros Halloc Hlimit Hfull Hid Hit Hother Hq Hoi Hlt.
  eexists. 
  assert (other ≠ id) as Hne by (intros ->; by rewrite Hid in Hother).
  unfold Set_, bind at 1.
  destruct (update_outcome newItem now s) as [[Hnone _]|(it' & Hit' & ->)];
    [by rewrite Hit in Hnone|].
  rewrite Hit in Hit'. injection Hit' as <-.
  set (s1 := set_heap _ s).
  unfold bind at 1, gets. simpl. rewrite Hid.
  unfold bind at 1, modify. set (s2 := set_items _ s1).
  assert (items_allocated s2) as Halloc2.
  { intros key p. unfold s2, s1. simpl. destruct (decide (id = key)) as [->|Hk].
    - rewrite lookup_insert_eq. intros [= <-]. rewrite lookup_insert_eq. eauto.
    - rewrite lookup_insert_ne by done. intros Hp.
      destruct (decide (newItem = p)) as [->|Hp'].
      + rewrite lookup_insert_eq. eauto.
      + rewrite lookup_insert_ne by done. by eapply Halloc. }
  unfold bind at 1, gets.
  assert (bool_decide (limit (cache s2) = 0%N)
          || bool_decide (size_of (cache s2) ≤ limit (cache s2))%N = false) as ->.
  { apply orb_false_iff. split; apply bool_decide_eq_false; simpl; [done|].
    unfold size_of in *. simpl. rewrite map_size_insert_None by done. lia. }
  destruct (removeLRU_evicts_least_recently_used first loop id other now (lastUsed oi) s2)
    as (key & tk & -> & Hkey & Htk & Hmin); [done| |done| |done|].
  { apply (lastUsed_of_entry s2 id newItem (mkCacheItem (item it) (death it) now)).
    - unfold s2. simpl. by rewrite lookup_insert_eq.
    - unfold s2, s1. simpl. by rewrite lookup_insert_eq. }
  { apply (lastUsed_of_entry s2 other q oi).
    - unfold s2. simpl. by rewrite lookup_insert_ne.
    - unfold s2, s1. simpl. by rewrite lookup_insert_ne. }
  exists key, tk. done.
Qed.

End SetFacts.

(** C9 (the code departs from the specification): a list with limit 1, two items
    [Set] under keys 1 and 2 with the same clock reading, and an iteration
    that starts at the new key. [removeLRU] starts from the entry [First]
    returns, here the item just inserted; the other item is not strictly
    older, so the loop keeps it, and the item just inserted is deleted. The
    same happens, whatever the clock, when one item is [Set] under both
    keys. *)
Theorem Set_evicts_the_item_just_inserted :
  let a := mkCacheItem 10 0 0 in
  let b := mkCacheItem 20 0 0 in
  let s0 := mkMem {[ 1%positive := a; 2%positive := b ]} (NewCacheList 1 0) in
  let tie := runSets [ mkSetCall (startingAt 1) (startingAt 1) 5 1 1;
                       mkSetCall (startingAt 2) (startingAt 2) 5 2 2 ] s0 in
  let shared := runSets [ mkSetCall (startingAt 1) (startingAt 1) 5 1 1;
                          mkSetCall (startingAt 2) (startingAt 2) 6 2 1 ] s0 in
  map_to_list (items (cache tie)) = [(1%N, 1%positive)]
  ∧ map_to_list (items (cache shared)) = [(1%N, 1%positive)].
Proof. by vm_compute. Qed.

(** With a strictly later clock reading and distinct items, the same calls
    evict the older item. *)
Example Set_evicts_the_older_item :
  let a := mkCacheItem 10 0 0 in
  let b := mkCacheItem 20 0 0 in
  let s0 := mkMem {[ 1%positive := a; 2%positive := b ]} (NewCacheList 1 0) in
  let s := runSets [ mkSetCall (startingAt 1) (startingAt 1) 5 1 1;
                     mkSetCall (startingAt 2) (startingAt 2) 6 2 2 ] s0 in
  map_to_list (items (cache s)) = [(2%N, 2%positive)].
Proof. by vm_compute. Qed.

End tlru_facts.

(** ** The tlru cache list: reading, deleting, replacing *)

Module tlru_properties.
Import tlru tlru_facts.

Section GetFacts.
Context {Content : Type} `{EqDecision Content} `{Interface Content}.
Implicit Types (s : Mem (Content := Content)).

Lemma update_allocated p it now s :
  heap s !! p = Some it →
  update p now s = Done tt (set_heap <[p := mkCacheItem (item it) (death it) now]> s).
Proof.
  intros Hp. destruct (update_outcome p now s) as [[Hnone _]|(it' & Hit' & ->)].
  - by rewrite Hp in Hnone.
  - rewrite Hp in Hit'. by injection Hit' as <-.
Qed.

(** [Get] of a stored key returns the stored pointer, stamps the item with
    the clock reading and counts a hit; the stored keys stay as they are. *)
Lemma Get_hit now id p it s :
  items (cache s) !! id = Some p → heap s !! p = Some it →
  Get now id s
  = Done (Some p, true)
      (set_hits incr64 (set_heap <[p := mkCacheItem (item it) (death it) now]> s)).
Proof.
  intros Hid Hp. unfold Get, bind at 1, gets. simpl. rewrite Hid.
  unfold bind at 1. rewrite (update_allocated p it) by done.
  by unfold bind, modify, ret.
Qed.

(** [Get] of a key that is not stored returns [nil, false] and counts a
    miss; nothing else changes. *)
Lemma Get_miss now id s :
  items (cache s) !! id = None →
  Get now id s = Done (None, false) (set_misses incr64 s).
Proof.
  intros Hid. unfold Get, bind at 1, gets. simpl. rewrite Hid.
  by unfold bind, modify, ret.
Qed.

(** What [Set] reads under a stored key after stamping the new item: the
    stored item, with its content as before. *)
Lemma stored_after_update newItem it now old o s :
  heap s !! newItem = Some it → heap s !! old = Some o →
  ∃ o', heap (set_heap <[newItem := mkCacheItem (item it) (death it) now]> s) !! old
        = Some o'
        ∧ item o' = item o
        ∧ (old ≠ newItem → o' = o).
Proof.
  intros Hit Ho. simpl. destruct (decide (old = newItem)) as [->|Hne].
  - rewrite lookup_insert_eq. eexists. split; [done|]. split; [|done].
    simpl. congruence.
  - rewrite lookup_insert_ne by done. eauto.
Qed.

(** X1: on a list that is unlimited, or not yet full, or already holds the
    key, [Set] followed by [Get] of the same key finds the key, and the
    content read through the list is the content of the item that was set,
    provided that under a stored key the stored content and the new one can
    be compared (they are not of one uncomparable dynamic type). The pointer
    returned is the new item for a new key and the old item, overwritten in
    place, for a key that was already stored. *)
Theorem Set_then_Get first loop now now' id newItem it s :
  items_allocated s →
  heap s !! newItem = Some it →
  (limit (cache s) = 0 ∨ is_Some (items (cache s) !! id)
   ∨ size_of (cache s) < limit (cache s))%N →
  (∀ old o, items (cache s) !! id = Some old → heap s !! old = Some o →
            uncomparable (item o) (item it) = false) →
  ∃ q s',
    (Set_ first loop now id newItem >> Get now' id) s = Done (Some q, true) s'
    ∧ q = default newItem (items (cache s) !! id)
    ∧ content_of s' id = Some (item it).
Proof.
  intros Halloc Hit Hroom Hcmp. unfold bind at 1, Set_, bind at 1.
  rewrite (update_allocated newItem it) by done.
  set (n := mkCacheItem (item it) (death it) now). set (s1 := set_heap _ s).
  assert (heap s1 !! newItem = Some n) as Hn by (unfold s1; simpl; by rewrite lookup_insert_eq).
  unfold bind at 1, gets. simpl.
  destruct (items (cache s) !! id) as [old|] eqn:Hid; simpl.
  - destruct (Halloc id old Hid) as [o0 Ho0].
    destruct (stored_after_update newItem it now old o0 s Hit Ho0) as (o & Ho & Hitem & _).
    fold n s1 in Ho.
    unfold bind at 1. rewrite (deref_allocated old o) by done.
    unfold bind at 1. rewrite (deref_allocated newItem n) by done.
    rewrite Hitem. simpl (item n). rewrite (Hcmp old o0) by done.
    destruct (bool_decide (item o0 ≠ item it) || bool_decide (old ≠ newItem)) eqn:Hcond.
    + unfold modify. rewrite (Get_hit now' id old n); [|done|].
      2:{ simpl. by rewrite lookup_insert_eq. }
      eexists _, _. split; [done|]. split; [done|].
      unfold content_of. simpl. rewrite Hid. simpl. by rewrite lookup_insert_eq.
    + apply orb_false_iff in Hcond as [_ Hsame].
      apply bool_decide_eq_false in Hsame. apply dec_stable in Hsame as ->.
      unfold ret. rewrite (Get_hit now' id newItem n) by done.
      eexists _, _. split; [done|]. split; [done|].
      unfold content_of. simpl. rewrite Hid. simpl. by rewrite lookup_insert_eq.
  - unfold bind at 1, modify. set (s2 := set_items _ s1).
    unfold bind at 1, gets.
    assert (bool_decide (limit (cache s2) = 0%N)
            || bool_decide (size_of (cache s2) ≤ limit (cache s2))%N = true) as ->.
    { apply orb_true_iff. destruct Hroom as [Hz|[[? ?]|Hlt]]; [left|done|right].
      - by apply bool_decide_eq_true.
      - apply bool_decide_eq_true. unfold size_of in *. simpl.
        rewrite map_size_insert_None by done. lia. }
    unfold ret. rewrite (Get_hit now' id newItem n).
    + eexists _, _. split; [done|]. split; [done|].
      unfold content_of. simpl. rewrite lookup_insert_eq. simpl.
      by rewrite lookup_insert_eq.
    + simpl. by rewrite lookup_insert_eq.
    + done.
Qed.

(** X2: [Set] on a key that is already stored never evicts and never
    replaces the stored pointer; it first stamps the item passed in. If the
    stored content and the new one can be compared, it returns, and the
    stored item takes over content, death and time of use of the item
    passed in, so every holder of the old pointer sees them. If the two
    contents are of one uncomparable dynamic type, the comparison panics
    and the stored item stays as it was. *)
Theorem Set_existing_key first loop now id newItem old o it s :
  items_allocated s →
  items (cache s) !! id = Some old →
  heap s !! old = Some o →
  heap s !! newItem = Some it →
  ∃ s',
    items (cache s') = items (cache s)
    ∧ heap s' !! newItem = Some (mkCacheItem (item it) (death it) now)
    ∧ if uncomparable (item o) (item it)
      then Set_ first loop now id newItem s = Panicked UncomparableType s'
           ∧ (old ≠ newItem → heap s' !! old = Some o)
      else Set_ first loop now id newItem s = Done tt s'
           ∧ heap s' !! old = Some (mkCacheItem (item it) (death it) now).
Proof.
  intros Halloc Hid Ho0 Hit.
  set (n := mkCacheItem (item it) (death it) now).
  set (s1 := set_heap <[newItem := n]> s).
  assert (heap s1 !! newItem = Some n) as Hn by (unfold s1; simpl; by rewrite lookup_insert_eq).
  destruct (stored_after_update newItem it now old o s Hit Ho0) as (o' & Ho & Hitem & Hsame).
  fold n s1 in Ho.
  assert (Set_ first loop now id newItem s
          = if uncomparable (item o) (item it) then Panicked UncomparableType s1
            else if bool_decide (item o ≠ item it) || bool_decide (old ≠ newItem)
            then Done tt (set_heap <[old := n]> s1)
            else Done tt s1) as ->.
  { unfold Set_, bind at 1. rewrite (update_allocated newItem it) by done.
    fold n s1. unfold bind at 1, gets. simpl. rewrite Hid.
    unfold bind at 1. rewrite (deref_allocated old o') by done.
    unfold bind at 1. rewrite (deref_allocated newItem n) by done.
    rewrite Hitem. simpl (item n).
    destruct (uncomparable (item o) (item it)); [done|].
    by destruct (_ || _). }
  destruct (uncomparable (item o) (item it)).
  { exists s1. split; [done|]. split; [done|]. split; [done|].
    intros Hne. rewrite Ho. f_equal. by apply Hsame. }
  destruct (bool_decide (item o ≠ item it) || bool_decide (old ≠ newItem)) eqn:Hcond.
  - eexists. split; [|split; [|split; [reflexivity|]]]; simpl.
    + done.
    + destruct (decide (old = newItem)) as [->|Hne].
      * by rewrite lookup_insert_eq.
      * rewrite lookup_insert_ne by done. by rewrite lookup_insert_eq.
    + by rewrite lookup_insert_eq.
  - apply orb_false_iff in Hcond as [_ Hold].
    apply bool_decide_eq_false in Hold. apply dec_stable in Hold as ->.
    exists s1. split; [done|]. split; [done|]. done.
Qed.

(** X3: [Delete] removes the key and nothing else, whether or not the key
    was stored; the size goes down by one exactly when it was; a [Get] of
    the key right after is a miss. *)
Theorem Delete_then_Get now id s :
  ∃ s1,
    Delete id s = Done tt s1
    ∧ items (cache s1) = delete id (items (cache s))
    ∧ heap s1 = heap s
    ∧ size (items (cache s1))
      = (if bool_decide (is_Some (items (cache s) !! id))
         then size (items (cache s)) - 1 else size (items (cache s)))%nat
    ∧ Get now id s1 = Done (None, false) (set_misses incr64 s1).
Proof.
  unfold Delete, bind, gets. simpl.
  destruct (items (cache s) !! id) as [p|] eqn:Hid.
  - unfold modify. eexists. split; [done|]. simpl. split; [done|]. split; [done|].
    split.
    + rewrite map_size_delete_Some by eauto. lia.
    + apply Get_miss. simpl. by rewrite lookup_delete_eq.
  - unfold ret. exists s. split; [done|].
    split; [by rewrite delete_id|]. split; [done|]. split.
    + done.
    + by apply Get_miss.
Qed.

(** X4: an entry that was just read is not the one the next insertion
    evicts. On a full list with a non-zero limit and allocated items, take a
    stored key, and another stored key whose item is a different one. After
    [Get] of the first key at a clock reading later than the last use of the
    other item, [Set] of a key that is not stored yet, with an allocated
    item that is not the other item, at a clock reading also later than the
    last use of the other item, keeps both the key read and the new key,
    and the list stays exactly full. *)
Theorem Get_protects_from_eviction first loop t1 t2 id p other q oi newId newItem nit s :
  items_allocated s →
  limit (cache s) ≠ 0%N →
  size_of (cache s) = limit (cache s) →
  items (cache s) !! id = Some p →
  items (cache s) !! other = Some q →
  heap s !! q = Some oi →
  p ≠ q →
  (lastUsed oi < t1)%Z →
  (lastUsed oi < t2)%Z →
  items (cache s) !! newId = None →
  heap s !! newItem = Some nit →
  newItem ≠ q →
  ∃ s',
    (Get t1 id >> Set_ first loop t2 newId newItem) s = Done tt s'
    ∧ items (cache s') !! id = Some p
    ∧ items (cache s') !! newId = Some newItem
    ∧ size_of (cache s') = limit (cache s').
Proof.
  intros Halloc Hlimit Hfull Hid Hother Hoi Hpq Ht1 Ht2 Hnew Hnit Hnq.
  destruct (Halloc _ _ Hid) as [ip Hip].
  unfold bind at 1. rewrite (Get_hit t1 id p ip) by done.
  set (s1 := set_hits _ _).
  assert (items_allocated s1) as Halloc1.
  { intros k r Hk. simpl in *. destruct (decide (p = r)) as [->|Hne].
    - rewrite lookup_insert_eq. eauto.
    - rewrite lookup_insert_ne by done. by eapply Halloc. }
  assert (∃ nit1, heap s1 !! newItem = Some nit1) as [nit1 Hnit1].
  { simpl. destruct (decide (p = newItem)) as [->|Hne].
    - rewrite lookup_insert_eq. eauto.
    - rewrite lookup_insert_ne by done. eauto. }
  destruct (Set_evicts_least_recently_used first loop t2 newId newItem nit1 other q oi s1)
    as (s2 & key & tk & Hs2 & -> & Hkey & Htk & Hmin); try done.
  { simpl. by rewrite lookup_insert_ne. }
  assert (lastUsed_of s2 other = Some (lastUsed oi)) as Hlo.
  { apply (lastUsed_of_entry s2 other q oi).
    - rewrite Hs2. simpl. rewrite lookup_insert_ne; [done|]. by intros ->; rewrite Hnew in Hother.
    - rewrite Hs2. simpl. by rewrite !lookup_insert_ne. }
  assert (other ≠ newId) as Hon by (intros ->; by rewrite Hnew in Hother).
  pose proof (Hmin other _ Hon Hlo) as Hle.
  assert (id ≠ newId) as Hidn by (intros ->; by rewrite Hnew in Hid).
  assert (key ≠ id) as Hkid.
  { intros ->.
    assert (∃ t, lastUsed_of s2 id = Some t ∧ (t = t1 ∨ t = t2)) as (t & Ht & Hor).
    { unfold lastUsed_of. rewrite Hs2. simpl. rewrite lookup_insert_ne by done.
      rewrite Hid. simpl. destruct (decide (newItem = p)) as [->|Hne].
      - rewrite lookup_insert_eq. simpl. eauto.
      - rewrite lookup_insert_ne by done. rewrite lookup_insert_eq. simpl. eauto. }
    rewrite Ht in Htk. injection Htk as <-. lia. }
  eexists. split; [done|]. simpl. rewrite Hs2. simpl.
  split; [by rewrite lookup_delete_ne, lookup_insert_ne|].
  split; [by rewrite lookup_delete_ne, lookup_insert_eq|].
  unfold size_of in *. simpl in *.
  rewrite map_size_delete_Some.
  - rewrite map_size_insert_None by done. simpl. lia.
  - unfold lastUsed_of in Htk. rewrite Hs2 in Htk. simpl in Htk.
    destruct (<[newId:=newItem]> (items (cache s)) !! key); [eauto|done].
Qed.

(** A way to check the allocation invariant by evaluation. *)
Lemma items_allocated_check s :
  bool_decide (map_Forall (λ _ p, is_Some (heap s !! p)) (items (cache s))) = true →
  items_allocated s.
Proof. intros Hall%bool_decide_eq_true key p Hkey. exact (Hall key p Hkey). Qed.

End GetFacts.

Lemma Set_then_Get_witness :
  let s := mkMem {[ 1%positive := mkCacheItem 10%nat 0 0;
                    2%positive := mkCacheItem 20%nat 0 0 ]}
                 (mkCacheList {[ 7%N := 1%positive ]} 2 0 0 0) in
  (∃ q s',
     (Set_ (startingAt 7) (startingAt 7) 5 8 2 >> Get 6 8) s = Done (Some q, true) s'
     ∧ q = default 2%positive (items (cache s) !! 8%N)
     ∧ content_of s' 8 = Some 20%nat)
  ∧ (∃ q s',
       (Set_ (startingAt 7) (startingAt 7) 5 7 2 >> Get 6 7) s = Done (Some q, true) s'
       ∧ q = default 2%positive (items (cache s) !! 7%N)
       ∧ content_of s' 7 = Some 20%nat).
Proof.
  intros s. split.
  - apply (Set_then_Get (startingAt 7) (startingAt 7) 5 6 8 2%positive
             (mkCacheItem 20%nat 0 0) s).
    + apply items_allocated_check. by vm_compute.
    + by vm_compute.
    + right; right. by vm_compute.
    + intros old o _ _. reflexivity.
  - apply (Set_then_Get (startingAt 7) (startingAt 7) 5 6 7 2%positive
             (mkCacheItem 20%nat 0 0) s).
    + apply items_allocated_check. by vm_compute.
    + by vm_compute.
    + right; left. exists 1%positive. reflexivity.
    + intros old o _ _. reflexivity.
Defined.

Lemma Set_existing_key_witness :
  let s := mkMem {[ 1%positive := mkCacheItem 10%nat 0 0;
                    2%positive := mkCacheItem 20%nat 3 0 ]}
                 (mkCacheList {[ 7%N := 1%positive ]} 1 0 0 0) in
  let t := mkMem {[ 1%positive := mkCacheItem [10%nat] 0 0;
                    2%positive := mkCacheItem [20%nat] 3 0 ]}
                 (mkCacheList {[ 7%N := 1%positive ]} 1 0 0 0) in
  (∃ s',
     items (cache s') = items (cache s)
     ∧ heap s' !! 2%positive = Some (mkCacheItem 20%nat 3 5)
     ∧ if uncomparable 10%nat 20%nat
       then Set_ (startingAt 7) (startingAt 7) 5 7 2 s = Panicked UncomparableType s'
            ∧ (1%positive ≠ 2%positive →
               heap s' !! 1%positive = Some (mkCacheItem 10%nat 0 0))
       else Set_ (startingAt 7) (startingAt 7) 5 7 2 s = Done tt s'
            ∧ heap s' !! 1%positive = Some (mkCacheItem 20%nat 3 5))
  ∧ (∃ t',
       items (cache t') = items (cache t)
       ∧ heap t' !! 2%positive = Some (mkCacheItem [20%nat] 3 5)
       ∧ if uncomparable [10%nat] [20%nat]
         then Set_ (startingAt 7) (startingAt 7) 5 7 2 t = Panicked UncomparableType t'
              ∧ (1%positive ≠ 2%positive →
                 heap t' !! 1%positive = Some (mkCacheItem [10%nat] 0 0))
         else Set_ (startingAt 7) (startingAt 7) 5 7 2 t = Done tt t'
              ∧ heap t' !! 1%positive = Some (mkCacheItem [20%nat] 3 5))
  ∧ uncomparable 10%nat 20%nat = false
  ∧ uncomparable [10%nat] [20%nat] = true.
Proof.
  intros s t. split; [|split].
  - apply (Set_existing_key (startingAt 7) (startingAt 7) 5 7 2%positive 1%positive
             (mkCacheItem 10%nat 0 0) (mkCacheItem 20%nat 3 0) s).
    + apply items_allocated_check. by vm_compute.
    + by vm_compute.
    + by vm_compute.
    + by vm_compute.
  - apply (Set_existing_key (startingAt 7) (startingAt 7) 5 7 2%positive 1%positive
             (mkCacheItem [10%nat] 0 0) (mkCacheItem [20%nat] 3 0) t).
    + apply items_allocated_check. by vm_compute.
    + by vm_compute.
    + by vm_compute.
    + by vm_compute.
  - split; reflexivity.
Defined.

Lemma Get_protects_from_eviction_witness :
  let s := mkMem {[ 1%positive := mkCacheItem 10%nat 0 0;
                    2%positive := mkCacheItem 20%nat 0 1;
                    3%positive := mkCacheItem 30%nat 0 0 ]}
                 (mkCacheList {[ 7%N := 1%positive; 8%N := 2%positive ]} 2 0 0 0) in
  ∃ s',
    (Get 5 7 >> Set_ (startingAt 9) (startingAt 9) 6 9 3) s = Done tt s'
    ∧ items (cache s') !! 7%N = Some 1%positive
    ∧ items (cache s') !! 9%N = Some 3%positive
    ∧ size_of (cache s') = limit (cache s').
Proof.
  intros s.
  apply (Get_protects_from_eviction (startingAt 9) (startingAt 9) 5 6 7 1%positive
           8 2%positive (mkCacheItem 20%nat 0 1) 9 3%positive
           (mkCacheItem 30%nat 0 0) s).
  - apply items_allocated_check. by vm_compute.
  - by vm_compute.
  - by vm_compute.
  - by vm_compute.
  - by vm_compute.
  - by vm_compute.
  - by vm_compute.
  - by vm_compute.
  - by vm_compute.
  - by vm_compute.
  - by vm_compute.
  - by vm_compute.
Defined.

End tlru_properties.

(** ** The dispatcher and the client: registration and delivery *)

Section DeliveryProperties.
Variable Key : EvtKind → string.
Context {Value : Type}.
Implicit Types (d : Dispatch Value) (box : Box Value) (evtName : string).

(** With no fire-once position pending, one delivery to well-typed
    listeners returns, starts each listener, and leaves the listeners as
    they were. *)
Lemma triggerCallbacks_no_once evtName k box fns d :
  switch_case Key evtName = Some k →
  box_type box = k →
  listeners_of d evtName = Callback k <$> fns →
  listenOnceOnly_of d evtName = [] →
  ∃ d1,
    triggerCallbacks Key evtName box d = Done tt d1
    ∧ goroutines d1 = goroutines d ++ ((λ fn, CallbackTask k fn box) <$> fns)
    ∧ listeners d1 = listeners d
    ∧ listenOnceOnly_of d1 evtName = [].
Proof.
  intros Hk Hbox Hls Honce. unfold triggerCallbacks. rewrite Hk.
  pose proof (switch_case_Some _ _ _ Hk) as ->.
  unfold bind at 1 2, gets. rewrite Hls, callbackLoop_typed by done.
  unfold bind at 1 2, gets.
  match goal with |- context [listenOnceOnly_of ?d' _] =>
    replace (listenOnceOnly_of d' (Key k)) with (@nil nat) by (by rewrite <-Honce) end.
  simpl. unfold ret, modify. eexists. split; [done|]. simpl. split; [done|].
  split; [done|]. unfold listenOnceOnly_of. simpl. by rewrite lookup_delete_eq.
Qed.


(** X6: one pending fire-once handler among ordinary handlers, all of the
    event's callback type. The next delivery starts every handler, the
    fire-once one included, removes exactly that one and clears the pending
    positions; the ordinary handlers all stay (their order may change), and
    the delivery after that starts only them. *)
Theorem single_once_handler_fires_once evtName k box fns fn gs d :
  switch_case Key evtName = Some k →
  box_type box = k →
  listeners_of d evtName = Callback k <$> (fns ++ fn :: gs) →
  listenOnceOnly_of d evtName = [length fns] →
  ∃ d1 d2 rest,
    triggerCallbacks Key evtName box d = Done tt d1
    ∧ goroutines d1
      = goroutines d ++ ((λ f, CallbackTask k f box) <$> (fns ++ fn :: gs))
    ∧ listeners_of d1 evtName = Callback k <$> rest
    ∧ rest ≡ₚ fns ++ gs
    ∧ listenOnceOnly_of d1 evtName = []
    ∧ triggerCallbacks Key evtName box d1 = Done tt d2
    ∧ goroutines d2 = goroutines d1 ++ ((λ f, CallbackTask k f box) <$> rest)
    ∧ listeners_of d2 evtName = Callback k <$> rest.
Proof.
  intros Hk Hbox Hls Honce.
  assert (∃ d1 rest,
            triggerCallbacks Key evtName box d = Done tt d1
            ∧ goroutines d1
              = goroutines d ++ ((λ f, CallbackTask k f box) <$> (fns ++ fn :: gs))
            ∧ listeners_of d1 evtName = Callback k <$> rest
            ∧ rest ≡ₚ fns ++ gs
            ∧ listenOnceOnly_of d1 evtName = []) as (d1 & rest & Hd1 & Hg1 & Hl1 & Hp & Ho1).
  { unfold triggerCallbacks. rewrite Hk.
    pose proof (switch_case_Some _ _ _ Hk) as ->.
    unfold bind at 1 2, gets. rewrite Hls, callbackLoop_typed by done.
    set (d0 := mkDispatch _ _ _ _ _ _).
    unfold bind at 1 2, gets.
    replace (listenOnceOnly_of d0 (Key k)) with [length fns] by (by rewrite <-Honce).
    destruct (removeLoop_single (Key k) (length fns) (Callback k fn) d0)
      as (ls' & -> & Hperm).
    { replace (listeners_of d0 (Key k)) with (Callback k <$> (fns ++ fn :: gs))
        by (by rewrite <-Hls).
      rewrite fmap_app. simpl. apply list_lookup_middle. by rewrite length_fmap. }
    replace (listeners_of d0 (Key k)) with (Callback k <$> (fns ++ fn :: gs)) in Hperm
      by (by rewrite <-Hls).
    rewrite fmap_app in Hperm. simpl in Hperm.
    rewrite <-(length_fmap (Callback k) fns) in Hperm at 1.
    rewrite delete_middle, <-fmap_app in Hperm.
    destruct (Permutation_map_inv (Callback k) (fns ++ gs) Hperm) as (rest & Hrest & Hp).
    unfold modify. eexists _, rest. split; [done|]. simpl. split; [done|].
    split; [|split; [by symmetry|]].
    - unfold listeners_of. simpl. rewrite lookup_insert_eq. simpl. exact Hrest.
    - unfold listenOnceOnly_of. simpl. by rewrite lookup_delete_eq. }
  destruct (triggerCallbacks_no_once evtName k box rest d1) as (d2 & Hd2 & Hg2 & Hl2 & _);
    [done..|].
  exists d1, d2, rest. repeat split; try done.
  unfold listeners_of in *. by rewrite Hl2.
Qed.

(** X7: a delivery of one event name, whether it returns or panics, leaves
    the listeners and the pending fire-once positions of every other name
    as they were; so do [AddHandler], [AddHandlerOnce] and [triggerChan]. *)
Theorem other_names_untouched evtName other box (listener : Listener) d :
  other ≠ evtName →
  let same (d' : Dispatch Value) :=
    listeners d' !! other = listeners d !! other
    ∧ listenOnceOnly d' !! other = listenOnceOnly d !! other in
  same (state_of (triggerCallbacks Key evtName box d))
  ∧ same (state_of (triggerChan Key evtName box d))
  ∧ same (state_of (AddHandler evtName listener d))
  ∧ same (state_of (AddHandlerOnce evtName listener d)).
Proof.
  intros Hne same.
  set (f := λ d' : Dispatch Value, (listeners d' !! other, listenOnceOnly d' !! other)).
  assert (∀ d1 d2, f d1 = f d2 → listeners d1 !! other = listeners d2 !! other
                                 ∧ listenOnceOnly d1 !! other = listenOnceOnly d2 !! other)
    as Hf by (intros d1 d2 [= H1 H2]; by split).
  assert (∀ index d0, f (state_of (removeAt evtName index d0)) = f d0) as Hat.
  { intros index d0. unfold removeAt, bind, gets, raise, modify. simpl.
    destruct (last _); simpl; [|done].
    destruct (decide _); simpl; [|done].
    unfold f. simpl. by rewrite lookup_insert_ne. }
  assert (∀ indices d0, f (state_of (removeLoop evtName indices d0)) = f d0) as Hloop.
  { induction indices as [|index rest IH]; intros d0; [done|].
    cbn [removeLoop]. by apply (bind_preserves f). }
  unfold same. split; [|split; [|split]]; apply Hf.
  - unfold triggerCallbacks.
    apply (bind_preserves f); [|intros [] d1; apply (bind_preserves f)].
    + intros d1. destruct (switch_case Key evtName) as [k|]; [|done].
      unfold bind, gets, f.
      destruct (callbackLoop_registry k box (listeners_of d1 (Key k)) d1) as (-> & -> & _).
      done.
    + intros d2. unfold bind, gets. apply Hloop.
    + intros [] d2. unfold modify, f. simpl. by rewrite lookup_delete_ne.
  - unfold triggerChan. destruct (switch_case Key evtName) as [k|]; [|reflexivity].
    unfold bind, assertBox. destruct (decide _); reflexivity.
  - unfold f. simpl. by rewrite lookup_insert_ne.
  - unfold f. simpl. by rewrite !lookup_insert_ne.
Qed.

End DeliveryProperties.


Lemma single_once_handler_fires_once_witness :
  let d := state_of ((AddHandler "READY" (Callback Ready 1) >>
                      AddHandlerOnce "READY" (Callback Ready 2) >>
                      AddHandler "READY" (Callback Ready 3))
                       (NewDispatch (Value := nat))) in
  let box := mkBox Ready 0 in
  ∃ d1 d2 rest,
    triggerCallbacks gatewayName "READY" box d = Done tt d1
    ∧ goroutines d1
      = goroutines d ++ ((λ f, CallbackTask Ready f box) <$> ([1] ++ 2 :: [3]))
    ∧ listeners_of d1 "READY" = Callback Ready <$> rest
    ∧ rest ≡ₚ [1] ++ [3]
    ∧ listenOnceOnly_of d1 "READY" = []
    ∧ triggerCallbacks gatewayName "READY" box d1 = Done tt d2
    ∧ goroutines d2 = goroutines d1 ++ ((λ f, CallbackTask Ready f box) <$> rest)
    ∧ listeners_of d2 "READY" = Callback Ready <$> rest.
Proof.
  intros d box.
  apply (single_once_handler_fires_once gatewayName "READY" Ready box [1] 2 [3] d);
    by vm_compute.
Defined.

Lemma other_names_untouched_witness :
  let d := state_of ((AddHandler "READY" (Callback Ready 1) >>
                      AddHandlerOnce "RESUMED" (Callback Resumed 2))
                       (NewDispatch (Value := nat))) in
  let same (d' : Dispatch nat) :=
    listeners d' !! "RESUMED" = listeners d !! "RESUMED"
    ∧ listenOnceOnly d' !! "RESUMED" = listenOnceOnly d !! "RESUMED" in
  same (state_of (triggerCallbacks gatewayName "READY" (mkBox Ready 0) d))
  ∧ same (state_of (triggerChan gatewayName "READY" (mkBox Ready 0) d))
  ∧ same (state_of (AddHandler "READY" (Callback Ready 3) d))
  ∧ same (state_of (AddHandlerOnce "READY" (Callback Ready 3) d)).
Proof.
  intros d.
  apply (other_names_untouched gatewayName "READY" "RESUMED" (mkBox Ready 0)
           (Callback Ready 3) d).
  by vm_compute.
Defined.

Section ClientProperties.
Context {Value SocketCommand Data : Type}.
Implicit Types (c : Client Value SocketCommand Data) (received : list Recv).

(** What one round of the handler, if it returns, has put on the channels. *)
Lemma handleRecv_sent (Key Event : EvtKind → string) unmarshal r c c1 :
  handleRecv Key Event unmarshal r c = Done tt c1 →
  sent (evtDispatch c1)
  = sent (evtDispatch c) ++ option_list (expected_send Key Event unmarshal r).
Proof.
  destruct r as [evtName data|]; simpl.
  2:{ intros [= <-]. simpl. by rewrite app_nil_r. }
  destruct (switch_case Event evtName) as [k|] eqn:Hk.
  2:{ intros [= <-]. simpl. by rewrite app_nil_r. }
  unfold bind at 1, lift.
  destruct (unmarshal (target k) data) as [v|p]; [|done].
  unfold bind at 1, onDispatch at 1, triggerChan.
  destruct (switch_case Key evtName) as [k'|] eqn:Hk'.
  - unfold bind at 1, assertBox. simpl.
    destruct (decide (k = k')) as [<-|Hne]; [|done].
    unfold ret, send, modify. simpl.
    unfold onDispatch. simpl.
    match goal with |- context [triggerCallbacks Key evtName ?b ?d0] =>
      pose proof (triggerCallbacks_sent Key evtName b d0) as Hsent;
      destruct (triggerCallbacks Key evtName b d0) as [[] d2|p d2]; [|done] end.
    intros [= <-]. simpl in *. by rewrite Hsent.
  - unfold printf, modify. simpl. unfold onDispatch. simpl.
    match goal with |- context [triggerCallbacks Key evtName ?b ?d0] =>
      pose proof (triggerCallbacks_sent Key evtName b d0) as Hsent;
      destruct (triggerCallbacks Key evtName b d0) as [[] d2|p d2]; [|done] end.
    intros [= <-]. simpl in *. by rewrite Hsent, app_nil_r.
Qed.

(** X8: when the event handler returns from a run, what it has sent is
    exactly one box per received frame whose name has a case both in the
    handler and in the dispatcher, on the channel of the dispatcher's case,
    carrying what the decode helper produced, in the order of arrival;
    frames whose name has no case in the handler or none in the dispatcher,
    and reads of a closed channel, send nothing. The constants of the
    handler's switch and those of the dispatcher's are separate
    parameters. *)
Theorem eventHandler_delivers_in_order (Key Event : EvtKind → string) unmarshal
    received c c' :
  eventHandler Key Event unmarshal received c = Done tt c' →
  sent (evtDispatch c')
  = sent (evtDispatch c) ++ omap (expected_send Key Event unmarshal) received.
Proof.
  revert c. induction received as [|r received IH]; intros c; simpl.
  - intros [= <-]. by rewrite app_nil_r.
  - unfold bind at 1.
    destruct (handleRecv Key Event unmarshal r c) as [[] c1|p c1] eqn:Hr; [|done].
    intros Hrest. apply IH in Hrest. apply handleRecv_sent in Hr.
    rewrite Hrest, Hr, <-app_assoc. f_equal.
    by destruct (expected_send Key Event unmarshal r).
Qed.

Lemma addHandlers_AddHandler event handlers c :
  ∃ c',
    addHandlers AddHandler event handlers c = Done tt c'
    ∧ ws c' = ws c ∧ tasks c' = tasks c ∧ log c' = log c
    ∧ listeners_of (evtDispatch c') event = listeners_of (evtDispatch c) event ++ handlers
    ∧ listenOnceOnly (evtDispatch c') = listenOnceOnly (evtDispatch c)
    ∧ goroutines (evtDispatch c') = goroutines (evtDispatch c)
    ∧ sent (evtDispatch c') = sent (evtDispatch c).
Proof.
  revert c. induction handlers as [|h handlers IH]; intros c; simpl.
  - exists c. by rewrite app_nil_r.
  - destruct (IH (state_of (onDispatch (AddHandler event h) c)))
      as (c' & Hc' & Hws & Ht & Hlog & Hls & Ho & Hg & Hs).
    exists c'. split; [exact Hc'|]. simpl in *. repeat split; try done.
    rewrite Hls. unfold listeners_of at 1. simpl. rewrite lookup_insert_eq. simpl.
    by rewrite <-app_assoc.
Qed.

Lemma addHandlers_AddHandlerOnce event handlers c :
  ∃ c',
    addHandlers AddHandlerOnce event handlers c = Done tt c'
    ∧ ws c' = ws c ∧ tasks c' = tasks c ∧ log c' = log c
    ∧ listeners_of (evtDispatch c') event = listeners_of (evtDispatch c) event ++ handlers
    ∧ listenOnceOnly_of (evtDispatch c') event
      = listenOnceOnly_of (evtDispatch c) event
        ++ seq (length (listeners_of (evtDispatch c) event)) (length handlers)
    ∧ goroutines (evtDispatch c') = goroutines (evtDispatch c)
    ∧ sent (evtDispatch c') = sent (evtDispatch c).
Proof.
  revert c. induction handlers as [|h handlers IH]; intros c; simpl.
  - exists c. by rewrite !app_nil_r.
  - destruct (IH (state_of (onDispatch (AddHandlerOnce event h) c)))
      as (c' & Hc' & Hws & Ht & Hlog & Hls & Ho & Hg & Hs).
    exists c'. split; [exact Hc'|]. simpl in *. repeat split; try done.
    + rewrite Hls. unfold listeners_of at 1. simpl. rewrite lookup_insert_eq. simpl.
      by rewrite <-app_assoc.
    + rewrite Ho. unfold listenOnceOnly_of at 1. simpl.
      rewrite lookup_insert_eq. simpl.
      assert (∀ d0, listeners_of (set_listenOnceOnly
                       <[event := listenOnceOnly_of (evtDispatch c) event
                                  ++ [length (listeners_of (evtDispatch c) event)]]>
                       (set_listeners
                          <[event := listeners_of (evtDispatch c) event ++ [h]]> d0))
                     event
                   = listeners_of (evtDispatch c) event ++ [h]) as ->.
      { intros d0. unfold listeners_of at 1. simpl. by rewrite lookup_insert_eq. }
      rewrite <-app_assoc, length_app. simpl. by rewrite Nat.add_1_r.
Qed.

(** X9: [On] and [Once] tell the websocket once that the event is of
    interest, even with no handler, and append the handlers to the
    listeners of the event in the order given; nothing is started or sent.
    [On] leaves the fire-once positions alone; [Once] records for the
    handlers the consecutive positions they were appended at. *)
Theorem On_and_Once_register event (handlers : list Listener) c :
  (∃ c',
     On event handlers c = Done tt c'
     ∧ ws c' = ws c ++ [WsRegisterEvent event]
     ∧ listeners_of (evtDispatch c') event = listeners_of (evtDispatch c) event ++ handlers
     ∧ listenOnceOnly (evtDispatch c') = listenOnceOnly (evtDispatch c)
     ∧ started c' = started c ∧ sent (evtDispatch c') = sent (evtDispatch c))
  ∧ (∃ c',
       Once event handlers c = Done tt c'
       ∧ ws c' = ws c ++ [WsRegisterEvent event]
       ∧ listeners_of (evtDispatch c') event
         = listeners_of (evtDispatch c) event ++ handlers
       ∧ listenOnceOnly_of (evtDispatch c') event
         = listenOnceOnly_of (evtDispatch c) event
           ++ seq (length (listeners_of (evtDispatch c) event)) (length handlers)
       ∧ started c' = started c ∧ sent (evtDispatch c') = sent (evtDispatch c)).
Proof.
  split.
  - destruct (addHandlers_AddHandler event handlers
                (state_of (wsCall (WsRegisterEvent event) c)))
      as (c' & Hc' & Hws & Ht & Hlog & Hls & Ho & Hg & Hs).
    exists c'. split; [exact Hc'|]. simpl in *. unfold started. by rewrite Hg, Ht.
  - destruct (addHandlers_AddHandlerOnce event handlers
                (state_of (wsCall (WsRegisterEvent event) c)))
      as (c' & Hc' & Hws & Ht & Hlog & Hls & Ho & Hg & Hs).
    exists c'. split; [exact Hc'|]. simpl in *. unfold started. by rewrite Hg, Ht.
Qed.

(** X10: [Connect] has no guard against a second call: when the websocket
    accepts both connection attempts, two calls start two drain goroutines
    and two event-handler goroutines. *)
Theorem Connect_twice_starts_everything_twice
    (wsConnectResult : list (WsCall SocketCommand Data) → option string) c :
  wsConnectResult (ws c) = None →
  wsConnectResult (ws c ++ [WsConnect]) = None →
  ∃ c2,
    (Connect wsConnectResult >> Connect wsConnectResult) c = Done None c2
    ∧ goroutines (evtDispatch c2) = goroutines (evtDispatch c) ++ [DrainTask; DrainTask]
    ∧ tasks c2 = tasks c ++ [EventHandlerTask; EventHandlerTask]
    ∧ ws c2 = ws c ++ [WsConnect; WsConnect].
Proof.
  intros H1 H2.
  unfold bind at 1.
  unfold Connect at 1, bind, logInfo, logErr, logLine, modify, onDispatch, start,
    alwaysListenToChans, go, modify, ws_Connect, bind, gets, wsCall, goClient,
    modify, ret.
  simpl. rewrite H1. simpl.
  unfold Connect, bind, logInfo, logErr, logLine, modify, onDispatch, start,
    alwaysListenToChans, go, modify, ws_Connect, bind, gets, wsCall, goClient,
    modify, ret.
  simpl. rewrite H2. simpl.
  eexists. split; [done|]. simpl. by rewrite <-!app_assoc.
Qed.

End ClientProperties.

Lemma eventHandler_delivers_in_order_witness :
  let decode := λ (_ : Target) (data : string), Ok data in
  let run := eventHandler gatewayName gatewayName decode in
  let received := [Frame "READY" "{}"; Frame "PING" "{}"; Closed; Frame "RESUMED" "{}"] in
  let c : Client string nat nat := newClient in
  sent (evtDispatch (state_of (run received c)))
  = sent (evtDispatch c) ++ omap (expected_send gatewayName gatewayName decode) received.
Proof.
  intros decode run received c.
  apply (eventHandler_delivers_in_order gatewayName gatewayName decode received c).
  by vm_compute.
Defined.

Lemma Connect_twice_starts_everything_twice_witness :
  ∃ c2 : Client nat nat nat,
    (Connect wsSucceeds >> Connect wsSucceeds) newClient = Done None c2
    ∧ goroutines (evtDispatch c2) = [DrainTask; DrainTask]
    ∧ tasks c2 = [EventHandlerTask; EventHandlerTask]
    ∧ ws c2 = [WsConnect; WsConnect].
Proof.
  apply (Connect_twice_starts_everything_twice wsSucceeds newClient); reflexivity.
Defined.

(** ** Voice states of a guild *)

Module voicestate_properties.
Import voicestate.

(** Swap-remove on any slice: the slot takes the last element and the slice
    is cut by one; what is left is the slice without the element of that
    slot, in another order. *)
Lemma swap_remove_Permutation {A} (l : list A) (i : nat) (x y : A) :
  l !! i = Some x → last l = Some y →
  take (length l - 1) (<[i := y]> l) ≡ₚ delete i l.
Proof.
  intros Hx [l0 ->]%last_Some.
  rewrite length_app; simpl. replace (length l0 + 1 - 1) with (length l0) by lia.
  destruct (decide (i < length l0)) as [Hlt|Hge].
  - rewrite insert_app_l, take_app_length' by (by rewrite ?length_insert).
    rewrite lookup_app_l in Hx by done.
    apply list_elem_of_split_length in Hx as (l1 & l2 & -> & ->).
    rewrite <-(Nat.add_0_r (length l1)) at 1.
    rewrite insert_app_r. simpl.
    rewrite <-app_assoc. simpl. rewrite delete_middle.
    rewrite <-Permutation_middle, (assoc (++) l1 l2 [y]).
    apply Permutation_cons_append.
  - assert (i = length l0) as ->.
    { apply lookup_lt_Some in Hx. rewrite length_app in Hx. simpl in Hx. lia. }
    rewrite list_lookup_middle in Hx by done. injection Hx as ->.
    rewrite list_insert_id by (by apply list_lookup_middle).
    by rewrite take_app_length, delete_middle, app_nil_r.
Qed.

Section Facts.
Context {Other : Type}.
Variable Empty : Snowflake → bool.
Variable DeepCopy : VoiceState (Other := Other) → VoiceState (Other := Other).
Implicit Types (s : Mem (Other := Other)) (st v : VoiceState (Other := Other))
               (vs : list (VoiceState (Other := Other))).

Lemma deref_voice_state p v s : heap s !! p = Some v → deref (Some p) s = Done v s.
Proof. intros Hp. unfold deref, bind, gets. simpl. by rewrite Hp. Qed.

Lemma positionFrom_first i (rest : list (option ptr)) vs p st s :
  Forall2 (λ session v, ∃ q, session = Some q ∧ heap s !! q = Some v) rest vs →
  heap s !! p = Some st →
  positionFrom i rest (Some p) s
  = Done (match list_find (λ v, key v = key st) vs with
          | Some (j, _) => Z.of_nat (i + j)
          | None => (-1)%Z
          end) s.
Proof.
  intros Hrep Hp. revert i.
  induction Hrep as [|session v rest vs (q & -> & Hq) _ IH]; intros i; [done|].
  cbn [positionFrom]. unfold bind at 1. rewrite (deref_voice_state q v) by done.
  unfold bind at 1. rewrite (deref_voice_state p st) by done.
  cbn [list_find]. unfold key at 1 2.
  case_bool_decide as Huser.
  - rewrite decide_False by (intros [= ? ?]; done).
    rewrite IH. destruct (list_find _ vs) as [[j w]|]; simpl; [|done].
    do 2 f_equal. lia.
  - case_bool_decide as Hsess.
    + destruct (decide _) as [_|Hne]; [|destruct Hne; congruence].
      unfold ret. do 2 f_equal. lia.
    + rewrite decide_False by (intros [= ? ?]; done).
      rewrite IH. destruct (list_find _ vs) as [[j w]|]; simpl; [|done].
      do 2 f_equal. lia.
Qed.

Lemma sessionPosition_position vs p st s :
  represents s vs → heap s !! p = Some st →
  sessionPosition (Some p) s = Done (position st vs) s.
Proof.
  intros Hrep Hp. unfold sessionPosition, bind, gets.
  rewrite (positionFrom_first 0 (sessions s) vs p st s Hrep Hp).
  unfold position. by destruct (list_find _ vs) as [[j w]|].
Qed.

(** X11: on a slice of allocated sessions, [sessionPosition] returns
    without panicking and changes nothing. It returns -1 exactly when no
    session has the user and session id of the state asked for; otherwise it
    returns the index of the first session that has them. *)
Theorem sessionPosition_finds_first vs p st s :
  represents s vs →
  heap s !! p = Some st →
  ∃ pos,
    sessionPosition (Some p) s = Done pos s
    ∧ existingSession (Some p) s = Done (bool_decide (-1 < pos)%Z) s
    ∧ (pos = (-1)%Z ↔ Forall (λ v, key v ≠ key st) vs)
    ∧ (∀ i : nat, pos = Z.of_nat i ↔
         ∃ v, vs !! i = Some v ∧ key v = key st
              ∧ ∀ j w, vs !! j = Some w → (j < i)%nat → key w ≠ key st).
Proof.
  intros Hrep Hp. exists (position st vs).
  split; [by apply sessionPosition_position|].
  split.
  { unfold existingSession, bind. by rewrite (sessionPosition_position vs p st s). }
  unfold position.
  destruct (list_find (λ v, key v = key st) vs) as [[j w]|] eqn:Hfind.
  - apply list_find_Some in Hfind as (Hj & Hw & Hleast). split.
    + split; [lia|]. intros Hall. exfalso.
      eapply Forall_lookup_1 in Hall; [|done]. done.
    + intros i. split.
      * intros ->%(inj Z.of_nat). eauto.
      * intros (v & Hi & Hv & Hl). f_equal.
        destruct (Nat.lt_trichotomy i j) as [Hlt|[->|Hgt]]; [|done|].
        -- by destruct (Hleast i v Hi Hlt).
        -- by destruct (Hl j w Hj Hgt).
  - apply list_find_None in Hfind. split; [done|].
    intros i. split; [lia|]. intros (v & Hi & Hv & _). exfalso.
    eapply Forall_lookup_1 in Hfind; [|done]. done.
Qed.

Lemma represents_lookup s vs :
  represents s vs ↔
  length (sessions s) = length vs
  ∧ ∀ i session v, sessions s !! i = Some session → vs !! i = Some v →
      ∃ q, session = Some q ∧ heap s !! q = Some v.
Proof. apply Forall2_same_length_lookup. Qed.

Lemma represents_allocated s vs q :
  represents s vs → Some q ∈ sessions s → is_Some (heap s !! q).
Proof.
  intros Hrep (i & Hi)%list_elem_of_lookup_1.
  destruct (Forall2_lookup_l _ _ _ _ _ Hrep Hi) as (v & _ & q' & [= <-] & Hq).
  eauto.
Qed.

(** The join branch of [update]. *)
Lemma update_join vs p st s (copyOnWrite : bool) :
  represents s vs → heap s !! p = Some st →
  Empty (ChannelID st) = false →
  list_find (λ v, key v = key st) vs = None →
  ∃ s' p',
    update Empty DeepCopy (Some p) copyOnWrite s = Done tt s'
    ∧ sessions s' = sessions s ++ [Some p']
    ∧ (if copyOnWrite
       then heap s !! p' = None ∧ heap s' = <[p' := DeepCopy st]> (heap s)
       else p' = p ∧ heap s' = heap s)
    ∧ represents s' (vs ++ [if copyOnWrite then DeepCopy st else st]).
Proof.
  intros Hrep Hp Hch Hfind. unfold update. unfold bind at 1.
  rewrite (sessionPosition_position vs p st s) by done.
  unfold position. rewrite Hfind. unfold bind at 1.
  rewrite (deref_voice_state p st) by done. rewrite Hch.
  rewrite bool_decide_eq_true_2 by lia.
  destruct copyOnWrite.
  - set (p' := fresh (dom (heap s))).
    assert (heap s !! p' = None) as Hfresh.
    { apply not_elem_of_dom. apply is_fresh. }
    exists (mkMem (<[p' := DeepCopy st]> (heap s)) (sessions s ++ [Some p'])), p'.
    split; [done|]. split; [done|]. split; [done|].
    apply Forall2_app.
    + eapply Forall2_impl; [exact Hrep|]. simpl.
      intros session v (q & -> & Hq). exists q. split; [done|].
      rewrite lookup_insert_ne; [done|]. intros ->. congruence.
    + constructor; [|constructor]. exists p'. simpl.
      by rewrite lookup_insert_eq.
  - exists (mkMem (heap s) (sessions s ++ [Some p])), p.
    split; [done|]. split; [done|]. split; [done|].
    apply Forall2_app; [exact Hrep|].
    constructor; [|constructor]. eauto.
Qed.

(** Writing through the pointer of one slot changes what that slot holds and
    nothing else, as long as no two sessions share user and session id. *)
Lemma represents_write s vs i q cur cur' :
  represents s vs → NoDup (key <$> vs) →
  vs !! i = Some cur → sessions s !! i = Some (Some q) →
  represents (mkMem (<[q := cur']> (heap s)) (sessions s)) (<[i := cur']> vs).
Proof.
  intros Hrep Hnodup Hi Hq.
  apply represents_lookup in Hrep as [Hlen Hrep].
  apply represents_lookup. simpl. split; [by rewrite length_insert|].
  intros j session v Hj Hv.
  destruct (Hrep i (Some q) cur Hq Hi) as (q' & [= <-] & Hcur).
  destruct (decide (i = j)) as [<-|Hne].
  - rewrite list_lookup_insert_eq in Hv by (by eapply lookup_lt_Some).
    injection Hv as <-. exists q. rewrite lookup_insert_eq. naive_solver.
  - rewrite list_lookup_insert_ne in Hv by done.
    destruct (Hrep j session v Hj Hv) as (r & -> & Hr).
    exists r. split; [done|]. rewrite lookup_insert_ne; [done|].
    intros <-. apply Hne.
    apply (NoDup_lookup (key <$> vs) i j (key cur)); [done| |].
    + by rewrite list_lookup_fmap, Hi.
    + rewrite list_lookup_fmap, Hv. simpl. congruence.
Qed.

(** The move branch of [update]. *)
Lemma update_move vs p st s (copyOnWrite : bool) i cur :
  represents s vs → NoDup (key <$> vs) → heap s !! p = Some st →
  Empty (ChannelID st) = false →
  list_find (λ v, key v = key st) vs = Some (i, cur) →
  ∃ s' q,
    update Empty DeepCopy (Some p) copyOnWrite s = Done tt s'
    ∧ sessions s' = sessions s
    ∧ sessions s !! i = Some (Some q)
    ∧ heap s' = <[q := mkVoiceState (GuildID cur) (ChannelID st) (UserID cur)
                         (SessionID cur) (other cur)]> (heap s)
    ∧ represents s' (<[i := mkVoiceState (GuildID cur) (ChannelID st) (UserID cur)
                               (SessionID cur) (other cur)]> vs).
Proof.
  intros Hrep Hnodup Hp Hch Hfind.
  pose proof Hfind as (Hi & Hkey & _)%list_find_Some.
  destruct (Forall2_lookup_r _ _ _ _ _ Hrep Hi) as (session & Hsess & q & -> & Hq).
  unfold update. unfold bind at 1.
  rewrite (sessionPosition_position vs p st s) by done.
  unfold position. rewrite Hfind. unfold bind at 1.
  rewrite (deref_voice_state p st) by done. rewrite Hch.
  rewrite bool_decide_eq_false_2 by lia.
  unfold bind at 1, gets. rewrite Nat2Z.id, Hsess.
  unfold bind at 1. rewrite (deref_voice_state q cur) by done.
  case_bool_decide as Hdiff.
  - eexists _, q. split; [reflexivity|]. simpl.
    split; [done|]. split; [done|]. split; [done|].
    by eapply represents_write.
  - assert (ChannelID cur = ChannelID st) as Hsame.
    { by destruct (decide (ChannelID cur = ChannelID st)). }
    assert (mkVoiceState (GuildID cur) (ChannelID st) (UserID cur)
              (SessionID cur) (other cur) = cur) as ->.
    { rewrite <-Hsame. by destruct cur. }
    exists s, q. split; [done|]. split; [done|]. split; [done|].
    rewrite insert_id by done. split; [done|].
    by rewrite list_insert_id.
Qed.

(** The leave branch of [update] on a session that is cached. *)
Lemma update_leave vs p st s (copyOnWrite : bool) i cur :
  represents s vs → heap s !! p = Some st →
  Empty (ChannelID st) = true →
  list_find (λ v, key v = key st) vs = Some (i, cur) →
  ∃ s' vs',
    update Empty DeepCopy (Some p) copyOnWrite s = Done tt s'
    ∧ heap s' = heap s
    ∧ represents s' vs'
    ∧ vs' ≡ₚ delete i vs.
Proof.
  intros Hrep Hp Hch Hfind.
  pose proof Hfind as (Hi & Hkey & _)%list_find_Some.
  pose proof (Forall2_length _ _ _ Hrep) as Hlen.
  pose proof (lookup_lt_Some _ _ _ Hi) as Hlt.
  destruct (lookup_lt_is_Some_2 vs (pred (length vs))) as [lastv Hlastv]; [lia|].
  destruct (Forall2_lookup_r _ _ _ _ _ Hrep Hlastv) as (lastS & HlastS & HR).
  rewrite <-Hlen in HlastS. rewrite <-last_lookup in HlastS.
  rewrite <-last_lookup in Hlastv.
  unfold update. unfold bind at 1.
  rewrite (sessionPosition_position vs p st s) by done.
  unfold position. rewrite Hfind. unfold bind at 1.
  rewrite (deref_voice_state p st) by done. rewrite Hch.
  rewrite bool_decide_eq_true_2 by lia.
  unfold removeSession, bind, gets. rewrite HlastS.
  rewrite bool_decide_eq_true_2 by lia. rewrite Nat2Z.id.
  rewrite take_insert_ge by lia.
  exists (mkMem (heap s) (take (length (sessions s) - 1) (<[i := lastS]> (sessions s)))),
         (take (length vs - 1) (<[i := lastv]> vs)).
  split; [done|]. split; [done|]. split.
  - unfold represents. simpl. rewrite Hlen.
    apply Forall2_take. by apply Forall2_insert.
  - by eapply swap_remove_Permutation.
Qed.

(** The leave branch of [update] on a session that is not cached. *)
Lemma update_leave_absent vs p st s (copyOnWrite : bool) :
  represents s vs → heap s !! p = Some st →
  Empty (ChannelID st) = true →
  list_find (λ v, key v = key st) vs = None →
  update Empty DeepCopy (Some p) copyOnWrite s = Done tt s.
Proof.
  intros Hrep Hp Hch Hfind. unfold update. unfold bind at 1.
  rewrite (sessionPosition_position vs p st s) by done.
  unfold position. rewrite Hfind. unfold bind at 1.
  rewrite (deref_voice_state p st) by done. by rewrite Hch.
Qed.

Lemma NoDup_keys_middle (l1 l2 : list (VoiceState (Other := Other))) cur :
  NoDup (key <$> (l1 ++ cur :: l2)) →
  NoDup (key <$> (l1 ++ l2)) ∧ ∀ w, w ∈ l1 ++ l2 → key w ≠ key cur.
Proof.
  intros Hnodup.
  assert (key <$> l1 ++ cur :: l2 ≡ₚ key cur :: (key <$> l1 ++ l2)) as Hperm.
  { by rewrite <-Permutation_middle. }
  rewrite Hperm in Hnodup. apply NoDup_cons in Hnodup as [Hnotin Hnodup].
  split; [done|]. intros w Hw Heq. apply Hnotin. rewrite <-Heq.
  by apply list_elem_of_fmap_2.
Qed.

(** X12: an update with a channel id that is not empty, on a cache whose
    sessions differ in user or session id, returns without panicking. A
    session not cached yet is appended (its copy when [copyOnWrite] is set,
    provided the copy keeps the ids and the channel); a cached one stays in
    its slot and gets the channel of the update. Either way the session is
    cached with the new channel afterwards, every other session is where and
    what it was, and the sessions still differ pairwise. *)
Theorem update_registers_or_moves vs p st s (copyOnWrite : bool) :
  represents s vs →
  NoDup (key <$> vs) →
  heap s !! p = Some st →
  Empty (ChannelID st) = false →
  key (DeepCopy st) = key st →
  ChannelID (DeepCopy st) = ChannelID st →
  ∃ s' vs',
    update Empty DeepCopy (Some p) copyOnWrite s = Done tt s'
    ∧ represents s' vs'
    ∧ NoDup (key <$> vs')
    ∧ length vs' = (if bool_decide (position st vs = -1)%Z
                    then S (length vs) else length vs)
    ∧ (∃ i v, list_find (λ v, key v = key st) vs' = Some (i, v)
              ∧ ChannelID v = ChannelID st)
    ∧ (∀ j w, vs !! j = Some w → key w ≠ key st → vs' !! j = Some w).
Proof.
  intros Hrep Hnodup Hp Hch Hkey Hchan. unfold position.
  destruct (list_find (λ v, key v = key st) vs) as [[i cur]|] eqn:Hfind.
  - destruct (update_move vs p st s copyOnWrite i cur)
      as (s' & q & Hrun & _ & _ & _ & Hrep'); [done..|].
    apply list_find_Some in Hfind as (Hi & Hcur & Hleast).
    pose proof (lookup_lt_Some _ _ _ Hi) as Hlt.
    eexists s', _. split; [exact Hrun|]. split; [exact Hrep'|].
    split; [|split; [|split]].
    + rewrite list_fmap_insert. rewrite list_insert_id; [done|].
      by rewrite list_lookup_fmap, Hi.
    + rewrite bool_decide_eq_false_2 by lia. by rewrite length_insert.
    + exists i, (mkVoiceState (GuildID cur) (ChannelID st) (UserID cur)
                   (SessionID cur) (other cur)).
      split; [|reflexivity].
      apply list_find_Some. split; [by apply list_lookup_insert_eq|].
      split; [done|]. intros j w Hj Hji.
      rewrite list_lookup_insert_ne in Hj by lia. by eapply Hleast.
    + intros j w Hj Hw. rewrite list_lookup_insert_ne; [done|].
      intros <-. congruence.
  - destruct (update_join vs p st s copyOnWrite)
      as (s' & p' & Hrun & _ & _ & Hrep'); [done..|].
    pose proof Hfind as Hall%list_find_None.
    set (new := if copyOnWrite then DeepCopy st else st) in *.
    assert (key new = key st ∧ ChannelID new = ChannelID st) as [Hnk Hnc].
    { unfold new. by destruct copyOnWrite. }
    eexists s', _. split; [exact Hrun|]. split; [exact Hrep'|].
    split; [|split; [|split]].
    + rewrite fmap_app. apply NoDup_app. split; [done|]. split.
      * intros k Hk [->|[]%elem_of_nil]%elem_of_cons.
        apply list_elem_of_fmap in Hk as (w & Hw & Hin).
        rewrite Forall_forall in Hall. apply (Hall w Hin). congruence.
      * apply NoDup_singleton.
    + rewrite bool_decide_eq_true_2 by done. rewrite length_app. simpl. lia.
    + exists (length vs), new. split; [|done].
      apply list_find_Some. split; [by apply list_lookup_middle|].
      split; [done|]. intros j w Hj Hjl.
      rewrite lookup_app_l in Hj by done.
      by eapply Forall_lookup_1 in Hall.
    + intros j w Hj _. by apply lookup_app_l_Some.
Qed.

(** X13: an update with an empty channel id, on a cache whose sessions
    differ in user or session id, returns without panicking and leaves the
    voice states themselves alone. Afterwards the cache holds exactly the
    sessions it held that have another user or session id than the update,
    still pairwise different, so the session of the update is not found any
    more. *)
Theorem update_leave_removes_session vs p st s (copyOnWrite : bool) :
  represents s vs →
  NoDup (key <$> vs) →
  heap s !! p = Some st →
  Empty (ChannelID st) = true →
  ∃ s' vs',
    update Empty DeepCopy (Some p) copyOnWrite s = Done tt s'
    ∧ heap s' = heap s
    ∧ represents s' vs'
    ∧ NoDup (key <$> vs')
    ∧ (∀ w, w ∈ vs' ↔ w ∈ vs ∧ key w ≠ key st)
    ∧ sessionPosition (Some p) s' = Done (-1)%Z s'.
Proof.
  intros Hrep Hnodup Hp Hch.
  destruct (list_find (λ v, key v = key st) vs) as [[i cur]|] eqn:Hfind.
  - destruct (update_leave vs p st s copyOnWrite i cur)
      as (s' & vs' & Hrun & Hheap & Hrep' & Hperm); [done..|].
    apply list_find_Some in Hfind as (Hi & Hcur & _).
    apply list_elem_of_split_length in Hi as (l1 & l2 & -> & ->).
    rewrite delete_middle in Hperm.
    apply NoDup_keys_middle in Hnodup as [Hnodup Hothers].
    assert (∀ w, w ∈ vs' ↔ w ∈ l1 ++ cur :: l2 ∧ key w ≠ key st) as Hmem.
    { intros w. rewrite Hperm, !elem_of_app, elem_of_cons. split.
      - intros Hw. split; [tauto|]. rewrite <-Hcur. apply Hothers.
        by apply elem_of_app.
      - intros [[Hw|[Hw|Hw]] Hne]; [tauto| |tauto].
        subst w. done. }
    exists s', vs'. split; [done|]. split; [done|]. split; [done|].
    split; [by rewrite Hperm|]. split; [done|].
    rewrite (sessionPosition_position vs' p st s') by (by rewrite ?Hheap).
    unfold position.
    destruct (list_find _ vs') as [[j w]|] eqn:Hfind'; [|done].
    apply list_find_Some in Hfind' as (Hj & Hw & _).
    apply list_elem_of_lookup_2, Hmem in Hj as [_ Hne]. done.
  - rewrite (update_leave_absent vs p st s copyOnWrite) by done.
    pose proof Hfind as Hall%list_find_None. rewrite Forall_forall in Hall.
    exists s, vs. split; [done|]. split; [done|]. split; [done|].
    split; [done|]. split.
    { intros w. split; [|tauto]. intros Hw. split; [done|]. by apply Hall. }
    rewrite (sessionPosition_position vs p st s) by done.
    unfold position. by rewrite Hfind.
Qed.

(** One [update] keeps the sessions pairwise different and every voice
    state allocated. *)
Lemma update_step vs p st s (copyOnWrite : bool) :
  represents s vs → NoDup (key <$> vs) → heap s !! p = Some st →
  key (DeepCopy st) = key st →
  ∃ s' vs',
    update Empty DeepCopy (Some p) copyOnWrite s = Done tt s'
    ∧ represents s' vs'
    ∧ NoDup (key <$> vs')
    ∧ (∀ r v, heap s !! r = Some v →
         ∃ v', heap s' !! r = Some v' ∧ key v' = key v).
Proof.
  intros Hrep Hnodup Hp Hkey.
  destruct (Empty (ChannelID st)) eqn:Hch;
    destruct (list_find (λ v, key v = key st) vs) as [[i cur]|] eqn:Hfind.
  - destruct (update_leave vs p st s copyOnWrite i cur)
      as (s' & vs' & Hrun & Hheap & Hrep' & Hperm); [done..|].
    apply list_find_Some in Hfind as (Hi & _ & _).
    apply list_elem_of_split_length in Hi as (l1 & l2 & -> & ->).
    rewrite delete_middle in Hperm.
    apply NoDup_keys_middle in Hnodup as [Hnodup _].
    exists s', vs'. split; [done|]. split; [done|].
    split; [by rewrite Hperm|]. rewrite Hheap. eauto.
  - rewrite (update_leave_absent vs p st s copyOnWrite) by done.
    exists s, vs. eauto 10.
  - destruct (update_move vs p st s copyOnWrite i cur)
      as (s' & q & Hrun & _ & Hq & Hheap & Hrep'); [done..|].
    apply list_find_Some in Hfind as (Hi & _ & _).
    destruct (Forall2_lookup_r _ _ _ _ _ Hrep Hi)
      as (session & Hsess & q' & -> & Hcur).
    rewrite Hsess in Hq. injection Hq as ->.
    eexists s', _. split; [exact Hrun|]. split; [exact Hrep'|]. split.
    + rewrite list_fmap_insert. rewrite list_insert_id; [done|].
      by rewrite list_lookup_fmap, Hi.
    + intros r v Hr. rewrite Hheap. destruct (decide (r = q)) as [->|Hne].
      * rewrite lookup_insert_eq. eexists. split; [done|].
        rewrite Hcur in Hr. by injection Hr as <-.
      * rewrite lookup_insert_ne by done. eauto.
  - destruct (update_join vs p st s copyOnWrite)
      as (s' & p' & Hrun & _ & Hheap & Hrep'); [done..|].
    pose proof Hfind as Hall%list_find_None. rewrite Forall_forall in Hall.
    eexists s', _. split; [exact Hrun|]. split; [exact Hrep'|]. split.
    + rewrite fmap_app. apply NoDup_app. split; [done|]. split.
      * intros k Hk [->|[]%elem_of_nil]%elem_of_cons.
        apply list_elem_of_fmap in Hk as (w & Hw & Hin).
        apply (Hall w Hin). rewrite <-Hw. by destruct copyOnWrite.
      * apply NoDup_singleton.
    + intros r v Hr. destruct copyOnWrite.
      * destruct Hheap as [Hfresh ->]. rewrite lookup_insert_ne; [eauto|].
        intros ->. congruence.
      * destruct Hheap as [_ ->]. eauto.
Qed.

(** X14: starting from sessions that differ pairwise in user or session id,
    any run of updates with allocated voice states returns without a panic
    and ends with sessions that still differ pairwise, as long as a copy
    keeps the user and session id of what it copies. Hence a session is
    never cached twice: the first slot [sessionPosition] finds is the only
    one. *)
Theorem updates_keep_sessions_distinct (calls : list (ptr * bool)) vs s :
  (∀ v, key (DeepCopy v) = key v) →
  represents s vs →
  NoDup (key <$> vs) →
  (∀ c, c ∈ calls → is_Some (heap s !! c.1)) →
  ∃ s' vs',
    updates Empty DeepCopy calls s = Done tt s'
    ∧ represents s' vs'
    ∧ NoDup (key <$> vs').
Proof.
  intros Hcopy. revert vs s.
  induction calls as [|[p copyOnWrite] calls IH]; intros vs s Hrep Hnodup Halloc.
  - exists s, vs. done.
  - destruct (Halloc (p, copyOnWrite)) as [st Hp]; [left|]. simpl in Hp.
    destruct (update_step vs p st s copyOnWrite)
      as (s1 & vs1 & Hrun & Hrep1 & Hnodup1 & Hkeep); [done..|].
    destruct (IH vs1 s1 Hrep1 Hnodup1) as (s' & vs' & Hrest & Hrep' & Hnodup').
    { intros c Hc. destruct (Halloc c) as [v Hv]; [by right|].
      destruct (Hkeep _ _ Hv) as (v' & -> & _). eauto. }
    exists s', vs'. split; [|done].
    cbn [updates]. unfold bind. simpl. by rewrite Hrun.
Qed.

(** X15: what the cache stores on a join is the caller's own voice state
    unless [copyOnWrite] is set. When a session that is not cached joins and
    a later update moves it to another channel, the voice state passed at
    the join has the new channel afterwards if it was stored without a copy,
    and is unchanged if it was copied. *)
Theorem update_shares_the_state_unless_copied
    vs p p2 st st2 s (copyOnWrite copyOnWrite2 : bool) :
  represents s vs →
  NoDup (key <$> vs) →
  Forall (λ v, key v ≠ key st) vs →
  heap s !! p = Some st →
  heap s !! p2 = Some st2 →
  key st2 = key st →
  Empty (ChannelID st) = false →
  Empty (ChannelID st2) = false →
  key (DeepCopy st) = key st →
  ∃ s',
    (update Empty DeepCopy (Some p) copyOnWrite
       >> update Empty DeepCopy (Some p2) copyOnWrite2) s = Done tt s'
    ∧ heap s' !! p
      = Some (if copyOnWrite then st
              else mkVoiceState (GuildID st) (ChannelID st2) (UserID st)
                     (SessionID st) (other st)).
Proof.
  intros Hrep Hnodup Habsent Hp Hp2 Hsame Hch Hch2 Hcopy.
  assert (list_find (λ v, key v = key st) vs = None) as Hfind.
  { by apply list_find_None. }
  destruct (update_join vs p st s copyOnWrite)
    as (s1 & p' & Hrun & Hsess & Hheap & Hrep1); [done..|].
  set (new := if copyOnWrite then DeepCopy st else st) in *.
  assert (key new = key st) as Hnew by (unfold new; by destruct copyOnWrite).
  assert (NoDup (key <$> vs ++ [new])) as Hnodup1.
  { rewrite fmap_app. apply NoDup_app. split; [done|]. split.
    - intros k Hk [->|[]%elem_of_nil]%elem_of_cons.
      apply list_elem_of_fmap in Hk as (w & Hw & Hin).
      rewrite Forall_forall in Habsent. apply (Habsent w Hin). congruence.
    - apply NoDup_singleton. }
  assert (heap s1 !! p2 = Some st2) as Hp2'.
  { unfold new in *. destruct copyOnWrite.
    - destruct Hheap as [Hfresh ->]. rewrite lookup_insert_ne; [done|].
      intros ->. congruence.
    - by destruct Hheap as [_ ->]. }
  assert (list_find (λ v, key v = key st2) (vs ++ [new])
          = Some (length vs, new)) as Hfind1.
  { apply list_find_Some. split; [by apply list_lookup_middle|].
    split; [congruence|]. intros j w Hj Hjl.
    rewrite lookup_app_l in Hj by done. rewrite Hsame.
    by eapply Forall_lookup_1 in Habsent. }
  destruct (update_move (vs ++ [new]) p2 st2 s1 copyOnWrite2 (length vs) new)
    as (s' & q & Hrun2 & _ & Hq & Hheap' & _); [done..|].
  rewrite Hsess in Hq.
  rewrite <-(Forall2_length _ _ _ Hrep), list_lookup_middle in Hq by done.
  injection Hq as <-.
  exists s'. split.
  { unfold bind. by rewrite Hrun. }
  rewrite Hheap'. unfold new in *. destruct copyOnWrite.
  - destruct Hheap as [Hfresh ->].
    rewrite !lookup_insert_ne; [done|intros ->; congruence..].
  - destruct Hheap as [-> _]. by rewrite lookup_insert_eq.
Qed.

(** A way to show what a slice of allocated pointers holds. *)
Lemma represents_intro s (ps : list ptr) vs :
  sessions s = Some <$> ps →
  Forall2 (λ q v, heap s !! q = Some v) ps vs →
  represents s vs.
Proof.
  intros Hss Hall. unfold represents. rewrite Hss.
  apply Forall2_fmap_l. eapply Forall2_impl; [exact Hall|]. simpl. eauto.
Qed.

End Facts.

Lemma sessionPosition_finds_first_witness :
  let v1 := mkVoiceState 1 5 100 "a" tt in
  let v2 := mkVoiceState 1 6 200 "b" tt in
  let st := mkVoiceState 1 7 200 "b" tt in
  let s := mkMem {[ 1%positive := v1; 2%positive := v2; 3%positive := st ]}
                 [Some 1%positive; Some 2%positive] in
  ∃ pos,
    sessionPosition (Some 3%positive) s = Done pos s
    ∧ existingSession (Some 3%positive) s = Done (bool_decide (-1 < pos)%Z) s
    ∧ (pos = (-1)%Z ↔ Forall (λ v, key v ≠ key st) [v1; v2])
    ∧ (∀ i : nat, pos = Z.of_nat i ↔
         ∃ v, [v1; v2] !! i = Some v ∧ key v = key st
              ∧ ∀ j w, [v1; v2] !! j = Some w → (j < i)%nat → key w ≠ key st).
Proof.
  intros v1 v2 st s.
  apply (sessionPosition_finds_first [v1; v2] 3%positive st s).
  - apply (represents_intro s [1; 2]%positive); [reflexivity|].
    repeat constructor.
  - reflexivity.
Defined.

Lemma update_registers_or_moves_witness :
  let v1 := mkVoiceState 1 5 100 "a" tt in
  let v2 := mkVoiceState 1 6 200 "b" tt in
  let st := mkVoiceState 1 7 200 "b" tt in
  let s := mkMem {[ 1%positive := v1; 2%positive := v2; 3%positive := st ]}
                 [Some 1%positive; Some 2%positive] in
  ∃ s' vs',
    update (N.eqb 0) id (Some 3%positive) true s = Done tt s'
    ∧ represents s' vs'
    ∧ NoDup (key <$> vs')
    ∧ length vs' = (if bool_decide (position st [v1; v2] = -1)%Z then 3 else 2)
    ∧ (∃ i v, list_find (λ v, key v = key st) vs' = Some (i, v)
              ∧ ChannelID v = ChannelID st)
    ∧ (∀ j w, [v1; v2] !! j = Some w → key w ≠ key st → vs' !! j = Some w).
Proof.
  intros v1 v2 st s.
  apply (update_registers_or_moves (N.eqb 0) id [v1; v2] 3%positive st s true).
  - apply (represents_intro s [1; 2]%positive); [reflexivity|].
    repeat constructor.
  - apply (bool_decide_unpack _). by vm_compute.
  - reflexivity.
  - reflexivity.
  - reflexivity.
  - reflexivity.
Defined.

Lemma update_leave_removes_session_witness :
  let v1 := mkVoiceState 1 5 100 "a" tt in
  let v2 := mkVoiceState 1 6 200 "b" tt in
  let st := mkVoiceState 1 0 100 "a" tt in
  let s := mkMem {[ 1%positive := v1; 2%positive := v2; 3%positive := st ]}
                 [Some 1%positive; Some 2%positive] in
  ∃ s' vs',
    update (N.eqb 0) id (Some 3%positive) false s = Done tt s'
    ∧ heap s' = heap s
    ∧ represents s' vs'
    ∧ NoDup (key <$> vs')
    ∧ (∀ w, w ∈ vs' ↔ w ∈ [v1; v2] ∧ key w ≠ key st)
    ∧ sessionPosition (Some 3%positive) s' = Done (-1)%Z s'.
Proof.
  intros v1 v2 st s.
  apply (update_leave_removes_session (N.eqb 0) id [v1; v2] 3%positive st s false).
  - apply (represents_intro s [1; 2]%positive); [reflexivity|].
    repeat constructor.
  - apply (bool_decide_unpack _). by vm_compute.
  - reflexivity.
  - reflexivity.
Defined.

Lemma updates_keep_sessions_distinct_witness :
  let join := mkVoiceState 1 5 100 "a" tt in
  let move := mkVoiceState 1 6 100 "a" tt in
  let leave := mkVoiceState 1 0 100 "a" tt in
  let s := mkMem {[ 1%positive := join; 2%positive := move; 3%positive := leave ]} [] in
  ∃ s' vs',
    updates (N.eqb 0) id
      [(1%positive, false); (2%positive, true); (3%positive, true); (2%positive, true)]
      s = Done tt s'
    ∧ represents s' vs'
    ∧ NoDup (key <$> vs').
Proof.
  intros join move leave s.
  apply (updates_keep_sessions_distinct (N.eqb 0) id
           [(1%positive, false); (2%positive, true); (3%positive, true);
            (2%positive, true)] [] s).
  - reflexivity.
  - constructor.
  - constructor.
  - intros c Hc. apply (bool_decide_unpack _).
    revert c Hc. apply Forall_forall. repeat constructor.
Defined.

Lemma update_shares_the_state_unless_copied_witness :
  let st := mkVoiceState 1 5 100 "a" tt in
  let st2 := mkVoiceState 1 6 100 "a" tt in
  let s := mkMem {[ 1%positive := st; 2%positive := st2 ]} [] in
  ∃ s',
    (update (N.eqb 0) id (Some 1%positive) false
       >> update (N.eqb 0) id (Some 2%positive) true) s = Done tt s'
    ∧ heap s' !! 1%positive = Some (mkVoiceState 1 6 100 "a" tt).
Proof.
  intros st st2 s.
  apply (update_shares_the_state_unless_copied (N.eqb 0) id [] 1%positive 2%positive
           st st2 s false true).
  - constructor.
  - constructor.
  - constructor.
  - reflexivity.
  - reflexivity.
  - reflexivity.
  - reflexivity.
  - reflexivity.
  - reflexivity.
Defined.

End voicestate_properties.

(** ** Channels *)

Module channel_properties.
Import channel.

Section Facts.
Context {User Timestamp Error : Type}.
Variable Empty : Snowflake → bool.
Variable User_DeepCopy : User → User.
Variable User_ID : User → option Snowflake.
Variable zeroTimestamp : Timestamp.
Variable newErrorUnsupportedType : string → Error.
Variable newErrorEmptyValue : string → Error.
Variable newErrorMissingSnowflake : string → Error.
Variable errors_New : string → Error.
Implicit Types (c target cached : Channel User Timestamp).

(** X16: [DeepCopy] of a channel always returns a channel. The copy passes
    [valid] exactly when the original does and [Compare]s equal to it, and
    its recipients are the copies of the original's, in order; but the
    unexported [complete] and [recipientsIDs] are not carried over: the copy
    is marked incomplete and has no recipient ids. *)
Theorem DeepCopy_keeps_validity_drops_private_fields c :
  ∃ copy,
    DeepCopy User_DeepCopy zeroTimestamp newErrorUnsupportedType c
    = Ok (ChannelPtr (Some copy))
    ∧ valid copy = valid c
    ∧ Compare (Some c) (Some copy) = Ok true
    ∧ Compare (Some copy) (Some c) = Ok true
    ∧ Recipients copy = User_DeepCopy <$> Recipients c
    ∧ complete copy = false
    ∧ recipientsIDs copy = [].
Proof.
  eexists. split; [reflexivity|]. simpl.
  split; [reflexivity|].
  rewrite !bool_decide_eq_true_2 by done. done.
Qed.

(** X17: [CopyOverTo] appends the copies of the receiver's recipients to
    the recipients the target already has, and leaves the target's
    [complete] and [recipientsIDs] alone. Hence copying the same channel
    over twice repeats its recipients, and the second copy changes nothing
    exactly when the channel has no recipients. A value that is not a
    [*Channel] is left alone and an error is returned. *)
Theorem CopyOverTo_appends_recipients c target :
  ∃ t1 t2,
    CopyOverTo User_DeepCopy newErrorUnsupportedType c (ChannelPtr (Some target))
    = Ok (ChannelPtr (Some t1), None)
    ∧ CopyOverTo User_DeepCopy newErrorUnsupportedType c (ChannelPtr (Some t1))
      = Ok (ChannelPtr (Some t2), None)
    ∧ Recipients t1 = Recipients target ++ (User_DeepCopy <$> Recipients c)
    ∧ Recipients t2
      = Recipients target ++ (User_DeepCopy <$> Recipients c)
          ++ (User_DeepCopy <$> Recipients c)
    ∧ complete t2 = complete target
    ∧ recipientsIDs t2 = recipientsIDs target
    ∧ (t2 = t1 ↔ Recipients c = [])
    ∧ ∃ e, CopyOverTo User_DeepCopy newErrorUnsupportedType c OtherValue
           = Ok (OtherValue, Some e).
Proof.
  eexists _, _. split; [reflexivity|]. split; [reflexivity|]. simpl.
  split; [done|]. split; [by rewrite <-app_assoc|].
  split; [done|]. split; [done|]. split; [|by eexists].
  split.
  - intros [= Heq]. rewrite <-app_assoc in Heq.
    apply (f_equal length) in Heq. rewrite !length_app, !length_fmap in Heq.
    apply length_zero_iff_nil. lia.
  - intros ->. simpl. by rewrite !app_nil_r.
Qed.

Lemma recipientIDs_filled (recipients : list User) :
  length (recipientIDs User_ID recipients).1 = length recipients
  ∧ ((recipientIDs User_ID recipients).2 = true →
       Some <$> (recipientIDs User_ID recipients).1 = User_ID <$> recipients)
  ∧ ((recipientIDs User_ID recipients).2 = false ↔
       ∃ recipient, recipient ∈ recipients ∧ User_ID recipient = None).
Proof.
  induction recipients as [|r rest (IHlen & IHids & IHnil)]; simpl.
  - split; [done|]. split; [done|]. split; [done|].
    intros (r & Hr & _). by apply elem_of_nil in Hr.
  - destruct (User_ID r) as [id|] eqn:Hid; simpl.
    + split; [by rewrite IHlen|]. split.
      * intros Hok. f_equal. by apply IHids.
      * rewrite IHnil. split.
        -- intros (r' & Hr' & Hnil). exists r'. split; [by right|done].
        -- intros (r' & [->|Hr']%elem_of_cons & Hnil); [congruence|eauto].
    + split; [by rewrite length_replicate|]. split; [done|].
      split; [|done]. intros _. exists r. split; [left|done].
Qed.

(** X18: [copyOverToCache] into a cached channel returns unless it runs
    into a nil recipient, and when it returns, doing it a second time
    changes nothing more. Id, type and application id are then taken from
    the receiver; the cached [Recipients] and [complete] are never touched.
    For a DM or group DM the cached recipient ids end up as many as the
    receiver has recipients: they are the ids of the recipients, unless the
    receiver already carries a list of that length, which is taken as it
    is. For the other types the cached recipient ids stay. When a DM or
    group DM whose recipient ids are not as many as its recipients has a
    nil recipient, the call panics and leaves the cached channel half
    written: id, type and last message id are the receiver's, the
    application id is still the old one. On a value that is not a
    [*Channel] the call panics at once. *)
Theorem copyOverToCache_idempotent c cached :
  (reads_nil_recipient User_ID c →
     ∃ partial,
       copyOverToCache User_ID c (ChannelPtr (Some cached))
       = Panicked NilDereference (ChannelPtr (Some partial))
       ∧ ID partial = ID c ∧ Type_ partial = Type_ c
       ∧ LastMessageID partial = LastMessageID c
       ∧ ApplicationID partial = ApplicationID cached
       ∧ Recipients partial = Recipients cached
       ∧ length (recipientsIDs partial) = length (Recipients c))
  ∧ (¬ reads_nil_recipient User_ID c →
       ∃ cached',
         copyOverToCache User_ID c (ChannelPtr (Some cached))
         = Done tt (ChannelPtr (Some cached'))
         ∧ copyOverToCache User_ID c (ChannelPtr (Some cached'))
           = Done tt (ChannelPtr (Some cached'))
         ∧ ID cached' = ID c ∧ Type_ cached' = Type_ c
         ∧ ApplicationID cached' = ApplicationID c
         ∧ Recipients cached' = Recipients cached
         ∧ complete cached' = complete cached
         ∧ (Type_ c = ChannelTypeDM ∨ Type_ c = ChannelTypeGroupDM →
              length (recipientsIDs cached') = length (Recipients c)
              ∧ (length (recipientsIDs c) ≠ length (Recipients c) →
                   Some <$> recipientsIDs cached' = User_ID <$> Recipients c)
              ∧ (length (recipientsIDs c) = length (Recipients c) →
                   recipientsIDs cached' = recipientsIDs c))
         ∧ (Type_ c ≠ ChannelTypeDM → Type_ c ≠ ChannelTypeGroupDM →
              recipientsIDs cached' = recipientsIDs cached))
  ∧ copyOverToCache User_ID c OtherValue = Panicked InterfaceConversion OtherValue.
Proof.
  pose proof (recipientIDs_filled (Recipients c)) as (Hflen & Hfids & Hfnil).
  unfold reads_nil_recipient, copyOverToCache.
  destruct (decide (Type_ c = ChannelTypeGroupDM)) as [Hg|Hg];
    [|destruct (decide (Type_ c = ChannelTypeDM)) as [Hd|Hd]].
  3:{ (* neither a DM nor a group DM *)
    rewrite !(bool_decide_eq_false_2 (Type_ c = ChannelTypeGroupDM)) by done.
    rewrite !(bool_decide_eq_false_2 (Type_ c = ChannelTypeDM)) by done. simpl.
    split; [by intros ([?|?] & _)|]. split; [|done]. intros _.
    destruct (decide (Type_ c = ChannelTypeGuildText)) as [Ht|Ht];
      [|destruct (decide (Type_ c = ChannelTypeGuildVoice)) as [Hv|Hv]].
    all: repeat first
           [ rewrite (bool_decide_eq_true_2 (Type_ c = _)) by done
           | rewrite (bool_decide_eq_false_2 (Type_ c = _)) by done ].
    all: eexists; split; [reflexivity|]; split; [reflexivity|]; simpl.
    all: repeat (split; [done|]).
    all: split; [by intros [?|?]|done]. }
  all: repeat first
         [ rewrite (bool_decide_eq_true_2 (Type_ c = ChannelTypeGroupDM)) by done
         | rewrite (bool_decide_eq_false_2 (Type_ c = ChannelTypeGroupDM)) by done
         | rewrite (bool_decide_eq_true_2 (Type_ c = ChannelTypeDM)) by done ].
  all: simpl.
  all: case_bool_decide as Hlen;
    [|destruct (recipientIDs User_ID (Recipients c)).2 eqn:Hok].
  (* the receiver's ids are taken as they are *)
  1,4: split; [by intros (_ & ? & _)|]; split; [|done]; intros _;
       eexists; split; [reflexivity|]; split; [reflexivity|]; simpl;
       repeat (split; [done|]); intros ? ?; congruence.
  (* the ids are read from the recipients, none of which is nil *)
  1,3: split; [intros (_ & _ & Hnil); apply Hfnil in Hnil; congruence|];
       split; [|done]; intros _;
       eexists; split; [reflexivity|]; split; [reflexivity|]; simpl;
       repeat (split; [done|]);
       (split; [intros _; split; [done|]; split; [by intros _; apply Hfids|done]|]);
       intros ? ?; congruence.
  (* a nil recipient *)
  all: split; [|split; [|done]].
  1,3: intros _; eexists; split; [reflexivity|]; simpl; by repeat split.
  all: intros Hnot; exfalso; apply Hnot; split; [by auto|]; split; [done|];
    by apply Hfnil.
Qed.

Implicit Types (session : Session (User := User) (Timestamp := Timestamp) (Error := Error)).



(** X20: a channel without id and without name, of a type other than DM
    and group DM, is still sent to the session to be created, with the empty
    name; when the session accepts it, no error is returned and the channel
    becomes what the session answered. *)
Theorem saveToDiscord_creates_nameless_channel session c updated :
  Empty (ID c) = true →
  Type_ c ≠ ChannelTypeDM →
  Type_ c ≠ ChannelTypeGroupDM →
  Name c = "" →
  (∀ req, session req = (Some updated, None)) →
  ∃ params,
    saveToDiscord Empty User_ID newErrorEmptyValue errors_New session c
    = Ok (mkSaved updated None [CreateGuildChannel (GuildID c) params])
    ∧ create_Name params = ""
    ∧ create_PermissionOverwrites params = PermissionOverwrites c.
Proof.
  intros Hid Hdm Hgroup Hname Hsession. unfold saveToDiscord.
  rewrite Hid, !bool_decide_eq_true_2 by done. simpl.
  unfold verify. rewrite Hsession. simpl.
  eexists. split; [reflexivity|]. simpl. by rewrite Hname.
Qed.

(** X21: without an id, nothing is asked of the session to save a group DM,
    or a DM that has not exactly one recipient, and nothing to delete any
    channel: whatever the session, the calls return an error and leave the
    channel as it was. *)
Theorem no_request_without_id c :
  Empty (ID c) = true →
  Type_ c = ChannelTypeGroupDM
  ∨ (Type_ c = ChannelTypeDM ∧ length (Recipients c) ≠ 1%nat) →
  ∃ e e',
    ∀ session,
      saveToDiscord Empty User_ID newErrorEmptyValue errors_New session c
      = Ok (mkSaved c (Some e) [])
      ∧ deleteFromDiscord Empty newErrorMissingSnowflake session c
        = Ok (mkSaved c (Some e') []).
Proof.
  intros Hid Htype. unfold saveToDiscord, deleteFromDiscord. rewrite Hid.
  destruct Htype as [Hg|[Hd Hlen]].
  - rewrite Hg. simpl. eexists _, _. intros session. split; reflexivity.
  - rewrite Hd. simpl.
    destruct (Recipients c) as [|recipient [|]]; simpl in *; [|done|];
      eexists _, _; intros session; split; reflexivity.
Qed.

(** X22: [Compare] goes by the id alone. On channels that are not nil it is
    reflexive and symmetric, and over all pointers, nil included, two
    comparisons that return true give a third that returns true. It is not
    symmetric on nil: a channel compared with nil is false, nil compared
    with a channel panics. *)
Theorem Compare_by_id_partial_on_nil :
  (∀ c, Compare (Some c) (Some c) = Ok true)
  ∧ (∀ c target, Compare (Some c) (Some target) = Compare (Some target) (Some c))
  ∧ (∀ c target, ID c = ID target ↔ Compare (Some c) (Some target) = Ok true)
  ∧ (∀ x y z : option (Channel User Timestamp),
       Compare x y = Ok true → Compare y z = Ok true → Compare x z = Ok true)
  ∧ (∀ c, Compare (Some c) None = Ok false
          ∧ Compare None (Some c) = Panic NilDereference).
Proof.
  split; [|split; [|split; [|split]]].
  - intros c. simpl. by rewrite bool_decide_eq_true_2.
  - intros c target. simpl. f_equal. apply bool_decide_ext. naive_solver.
  - intros c target. simpl. split.
    + intros Heq. by rewrite bool_decide_eq_true_2.
    + intros [= Heq]. by apply bool_decide_eq_true in Heq.
  - intros [x|] [y|] [z|]; simpl; try done.
    intros [= Hxy%bool_decide_eq_true] [= Hyz%bool_decide_eq_true].
    rewrite bool_decide_eq_true_2; [done|congruence].
  - done.
Qed.

End Facts.

(** A DM with two recipients, the second nil, and no recipient ids yet:
    the call panics at the second recipient; the cached channel has the id,
    the type and the last message id of the receiver, a slice of two
    recipient ids with the first one filled in, and its old application
    id. *)
Example copyOverToCache_nil_recipient :
  let userID := λ recipient : option nat, N.of_nat <$> recipient in
  let c := mkChannel (option nat) nat 5 1 0 0 [] "" None false 8 0 0 0
                     [Some 4%nat; None] None 0 6 0 0%nat true [] in
  let cached := mkChannel (option nat) nat 0 0 0 0 [] "" None false 0 0 0 0 [] None
                          0 0 0 0%nat false [] in
  copyOverToCache userID c (ChannelPtr (Some cached))
  = Panicked NilDereference
      (ChannelPtr (Some (mkChannel (option nat) nat 5 1 0 0 [] "" None false 8 0 0 0 []
                           None 0 0 0 0%nat false [4%N; 0%N]))).
Proof. by vm_compute. Qed.


Lemma saveToDiscord_creates_nameless_channel_witness :
  let userID := λ recipient : option nat, N.of_nat <$> recipient in
  let c := mkChannel (option nat) nat 0 0 9 1 [] "" None false 0 0 0 0 [] None 0 0 0
                     0%nat false [] in
  let updated := mkChannel (option nat) nat 77 0 9 1 [] "" None false 0 0 0 0 [] None
                           0 0 0 0%nat false [] in
  let session : Session (User := option nat) (Timestamp := nat) (Error := string) :=
    λ _, (Some updated, None) in
  ∃ params,
    saveToDiscord (N.eqb 0) userID id id session c
    = Ok (mkSaved updated None [CreateGuildChannel 9 params])
    ∧ create_Name params = ""
    ∧ create_PermissionOverwrites params = [].
Proof.
  intros userID c updated session.
  apply (saveToDiscord_creates_nameless_channel (N.eqb 0) userID id id session c
           updated).
  - reflexivity.
  - by vm_compute.
  - by vm_compute.
  - reflexivity.
  - reflexivity.
Defined.

Lemma no_request_without_id_witness :
  let userID := λ recipient : option nat, N.of_nat <$> recipient in
  let c := mkChannel (option nat) nat 0 3 0 0 [] "friends" None false 0 0 0 0
                     [Some 1; Some 2]%nat None 0 0 0 0%nat false [] in
  ∃ e e' : string,
    ∀ session,
      saveToDiscord (N.eqb 0) userID id id session c = Ok (mkSaved c (Some e) [])
      ∧ deleteFromDiscord (N.eqb 0) id session c = Ok (mkSaved c (Some e') []).
Proof.
  intros userID c.
  apply (no_request_without_id (N.eqb 0) userID id id id c).
  - reflexivity.
  - left. reflexivity.
Defined.

End channel_properties.

(** ** The tlru cache list: the life of an item *)

Module tlru_item_properties.
Import tlru tlru_facts tlru_properties.

Section ItemFacts.
Context {Content : Type} `{EqDecision Content} `{Interface Content}.
Implicit Types (s : Mem (Content := Content)).

Lemma wrap64_fits z : (- 2 ^ 63 ≤ z < 2 ^ 63)%Z → wrap64 z = z.
Proof. intros Hz. unfold wrap64. rewrite Z.mod_small by lia. lia. Qed.

Lemma wrap64_overflow z : (2 ^ 63 ≤ z < 2 ^ 64)%Z → wrap64 z = (z - 2 ^ 64)%Z.
Proof.
  intros Hz. unfold wrap64.
  replace (z + 2 ^ 63)%Z with ((z - 2 ^ 63) + 1 * 2 ^ 64)%Z by lia.
  rewrite Z.mod_add by lia. rewrite Z.mod_small by lia. lia.
Qed.

(** X23: [CreateCacheableItem] allocates a new item and changes nothing
    else; the item holds the content and has never been used. Its death is
    the clock reading of its creation plus the lifetime of the list, added
    in [int64]: when the sum fits, the item is dead from that time on, so
    with lifetime 0 it is dead from its creation; when the sum overflows,
    the death wraps to a negative time and the item is dead at once.
    [RefreshAfterDiscordUpdate] keeps the content, stamps the use, and
    moves the death to its own clock reading plus the lifetime, wrapped the
    same way. *)
Theorem created_item_is_dead_after_its_lifetime now (content : Content) s :
  ∃ p it s',
    CreateCacheableItem now content s = Done p s'
    ∧ heap s !! p = None
    ∧ heap s' = <[p := it]> (heap s)
    ∧ cache s' = cache s
    ∧ item it = content
    ∧ lastUsed it = 0%Z
    ∧ (∀ t, dead it t = true ↔ (wrap64 (now + lifetime (cache s)) ≤ t)%Z)
    ∧ ((- 2 ^ 63 ≤ now + lifetime (cache s) < 2 ^ 63)%Z →
         ∀ t, dead it t = true ↔ (now + lifetime (cache s) ≤ t)%Z)
    ∧ ((2 ^ 63 ≤ now + lifetime (cache s) < 2 ^ 64)%Z →
         ∀ t, (0 ≤ t)%Z → dead it t = true)
    ∧ ∀ now1 now2,
        ∃ it' s'',
          RefreshAfterDiscordUpdate now1 now2 p s' = Done tt s''
          ∧ heap s'' = <[p := it']> (heap s')
          ∧ cache s'' = cache s
          ∧ item it' = content
          ∧ lastUsed it' = now1
          ∧ (∀ t, dead it' t = true ↔ (wrap64 (now2 + lifetime (cache s)) ≤ t)%Z).
Proof.
  set (p := fresh (dom (heap s))).
  assert (heap s !! p = None) as Hfresh.
  { apply not_elem_of_dom. apply is_fresh. }
  set (it := mkCacheItem content (wrap64 (now + lifetime (cache s))) 0).
  exists p, it, (set_heap <[p := it]> s).
  split; [reflexivity|]. split; [done|]. split; [done|]. split; [done|].
  split; [done|]. split; [done|].
  assert (∀ t, dead it t = true ↔ (wrap64 (now + lifetime (cache s)) ≤ t)%Z) as Hdead.
  { intros t. unfold dead. simpl. apply bool_decide_eq_true. }
  split; [done|]. split; [|split].
  - intros Hfit t. rewrite Hdead. by rewrite wrap64_fits.
  - intros Hover t Ht. apply Hdead. rewrite wrap64_overflow by done. lia.
  - intros now1 now2.
    exists (mkCacheItem content (wrap64 (now2 + lifetime (cache s))) now1).
    eexists. split.
    + unfold RefreshAfterDiscordUpdate. unfold bind at 1.
      rewrite (update_allocated p it) by (simpl; by rewrite lookup_insert_eq).
      unfold bind at 1.
      rewrite (deref_allocated p (mkCacheItem content (wrap64 (now + lifetime (cache s))) now1))
        by (simpl; by rewrite lookup_insert_eq).
      reflexivity.
    + simpl. split; [by rewrite !insert_insert_eq|]. split; [done|].
      split; [done|]. split; [done|].
      intros t. unfold dead. simpl. apply bool_decide_eq_true.
Qed.

End ItemFacts.
End tlru_item_properties.
